(** * Workflow orchestration core of the GenAI launchpad template

    A shallow embedding of [app/core]: the schema model ([schema.py]), the
    schema validator ([validate.py]), the run-scoped task context
    ([task.py]), routers ([nodes/router.py]), concurrent groups
    ([nodes/concurrent.py]) and the workflow runner ([workflow.py]). *)

From stdpp Require Import base option list relations gmap strings fin_maps.

(** ** Data model *)

(** A node class is the key of the graph.  Classes are compared by
    identity; a class is written here by its name. *)
Abbreviation node_id := string.

(** [schema.NodeConfig]. [concurrent_nodes] is [Optional[List[...]]]. *)
Record NodeConfig := mkNodeConfig {
  node : node_id;
  connections : list node_id;
  is_router : bool;
  description : option string;
  concurrent_nodes : option (list node_id)
}.

(** [NodeConfig(node=n)] with every other field at its default. *)
Definition default_config (n : node_id) : NodeConfig :=
  mkNodeConfig n [] false None (Some []).

(** Field values of events and of result records. *)
Inductive value :=
| VNone
| VBool (b : bool)
| VInt (z : Z)
| VStr (s : string).

#[global] Instance value_eq_dec : EqDecision value.
Proof. solve_decision. Defined.

(** A Python exception object, an instance of a subclass of [Exception]:
    its class name and [str(e)]. *)
Record exn := mkExn { exn_class : string; exn_msg : string }.

(** [schema.WorkflowSchema]. Calling [event_schema] on the fields of the raw
    payload of a run parses it, and may raise. *)
Record WorkflowSchema := mkSchema {
  ws_description : option string;
  event_schema : gmap string value → exn + gmap string value;
  start : node_id;
  nodes : list NodeConfig
}.

(** [next((nc for nc in self.workflow_schema.nodes if nc.node == n), None)],
    the look-up both the validator and the runner use. *)
Definition find_config (s : WorkflowSchema) (n : node_id) : option NodeConfig :=
  List.find (λ nc, bool_decide (node nc = n)) (nodes s).

(** ** Validator ([validate.py]) *)

Module Validator.

(** The neighbours followed from [n]: [node_config.connections] when a
    configuration was found, nothing otherwise. *)
Definition successors (s : WorkflowSchema) (n : node_id) : list node_id :=
  match find_config s n with
  | Some nc => connections nc
  | None => []
  end.

(** The two sets of [_has_cycle]. *)
Record dfs_state := mkDfs {
  visited : gset string;
  rec_stack : gset string
}.

(** [for neighbor in node_config.connections: ...] of the inner [dfs]; the
    recursive call is the parameter [rec]. [None] is an exhausted recursion
    budget. *)
Fixpoint dfs_neighbors (rec : node_id → dfs_state → option (bool * dfs_state))
    (nbs : list node_id) (st : dfs_state) : option (bool * dfs_state) :=
  match nbs with
  | [] => Some (false, st)
  | nb :: rest =>
    if decide (nb ∉ visited st) then
      match rec nb st with
      | None => None
      | Some (true, st') => Some (true, st')
      | Some (false, st') => dfs_neighbors rec rest st'
      end
    else if decide (nb ∈ rec_stack st) then Some (true, st)
    else dfs_neighbors rec rest st
  end.

(** The inner function [dfs(node)]; [depth] bounds the recursion depth.
    [rec_stack.remove(node)] finds [node] on the stack (the loop gives the
    stack back as it got it), so it is a set difference here. *)
Fixpoint dfs (s : WorkflowSchema) (depth : nat) (n : node_id) (st : dfs_state)
    : option (bool * dfs_state) :=
  match depth with
  | O => None
  | S depth' =>
    let st1 := mkDfs ({[n]} ∪ visited st) ({[n]} ∪ rec_stack st) in
    match dfs_neighbors (dfs s depth') (successors s n) st1 with
    | None => None
    | Some (true, st2) => Some (true, st2)
    | Some (false, st2) =>
      Some (false, mkDfs (visited st2) (rec_stack st2 ∖ {[n]}))
    end
  end.

(** [for node_config in self.workflow_schema.nodes: ...] of [_has_cycle]. *)
Fixpoint has_cycle_from (s : WorkflowSchema) (depth : nat)
    (ncs : list NodeConfig) (st : dfs_state) : option bool :=
  match ncs with
  | [] => Some false
  | nc :: rest =>
    if decide (node nc ∉ visited st) then
      match dfs s depth (node nc) st with
      | None => None
      | Some (true, _) => Some true
      | Some (false, st') => has_cycle_from s depth rest st'
      end
    else has_cycle_from s depth rest st
  end.

(** Every class the schema mentions. *)
Definition mentioned (s : WorkflowSchema) : gset string :=
  list_to_set (flat_map (λ nc, node nc :: connections nc) (nodes s)).

(** A recursion depth no traversal of [s] exceeds (each call of [dfs] marks
    a class that was not yet visited). *)
Definition depth_bound (s : WorkflowSchema) : nat := S (size (mentioned s)).

Definition has_cycle_depth (s : WorkflowSchema) (depth : nat) : option bool :=
  has_cycle_from s depth (nodes s) (mkDfs ∅ ∅).

(** [_has_cycle]. *)
Definition has_cycle (s : WorkflowSchema) : option bool :=
  has_cycle_depth s (depth_bound s).

(** The [while queue:] loop of [_get_reachable_nodes]; [steps] bounds the
    number of iterations. *)
Fixpoint bfs (s : WorkflowSchema) (steps : nat) (reachable : gset string)
    (queue : list node_id) : option (gset string) :=
  match queue with
  | [] => Some reachable
  | n :: q =>
    match steps with
    | O => None
    | S steps' =>
      if decide (n ∉ reachable)
      then bfs s steps' ({[n]} ∪ reachable) (q ++ successors s n)
      else bfs s steps' reachable q
    end
  end.

Definition total_connections (s : WorkflowSchema) : nat :=
  sum_list_with (λ nc, length (connections nc)) (nodes s).

(** A number of iterations the queue loop of [s] never exceeds. *)
Definition steps_bound (s : WorkflowSchema) : nat :=
  S (S (size (mentioned s)) * S (total_connections s)).

(** [_get_reachable_nodes]. *)
Definition get_reachable_nodes (s : WorkflowSchema) : option (gset string) :=
  bfs s (steps_bound s) ∅ [start s].

(** The [ValueError]s of the validator, by what their message reports. *)
Inductive validation_error :=
| CycleError
| UnreachableNodes (unreachable : gset string)
| MultipleConnections (name : node_id).

(** [set(nc.node for nc in self.workflow_schema.nodes)] *)
Definition all_nodes (s : WorkflowSchema) : gset string :=
  list_to_set (map node (nodes s)).

(** [_validate_dag]: [None] when the traversal budget ran out, else
    [inl e] for a raised error and [inr ()] for a normal return. *)
Definition validate_dag (s : WorkflowSchema) : option (validation_error + unit) :=
  match has_cycle s with
  | None => None
  | Some true => Some (inl CycleError)
  | Some false =>
    match get_reachable_nodes s with
    | None => None
    | Some reachable_nodes =>
      let unreachable_nodes := all_nodes s ∖ reachable_nodes in
      if decide (unreachable_nodes ≠ ∅)
      then Some (inl (UnreachableNodes unreachable_nodes))
      else Some (inr ())
    end
  end.

(** [_validate_connections] over the remaining configurations. *)
Fixpoint validate_connections_from (ncs : list NodeConfig) : validation_error + unit :=
  match ncs with
  | [] => inr ()
  | nc :: rest =>
    if (1 <? length (connections nc))%nat && negb (is_router nc)
    then inl (MultipleConnections (node nc))
    else validate_connections_from rest
  end.

Definition validate_connections (s : WorkflowSchema) : validation_error + unit :=
  validate_connections_from (nodes s).

(** [WorkflowValidator.validate]. *)
Definition validate (s : WorkflowSchema) : option (validation_error + unit) :=
  match validate_dag s with
  | None => None
  | Some (inl e) => Some (inl e)
  | Some (inr _) => Some (validate_connections s)
  end.

(** *** What the checks are meant to establish *)

(** [b] is a successor of [a]: one of the connections of the configuration
    the look-up finds for [a]. *)
Definition edge (s : WorkflowSchema) (a b : node_id) : Prop :=
  b ∈ successors s a.

(** The successor graph contains a cycle. *)
Definition cyclic (s : WorkflowSchema) : Prop :=
  ∃ n, tc (edge s) n n.

(** [n] can be reached from the start node along successor edges. *)
Definition reachable (s : WorkflowSchema) (n : node_id) : Prop :=
  rtc (edge s) (start s) n.

(** [n] has a configuration in the schema. *)
Definition configured (s : WorkflowSchema) (n : node_id) : Prop :=
  ∃ nc, nc ∈ nodes s ∧ node nc = n.

Definition some_unreachable (s : WorkflowSchema) : Prop :=
  ∃ n, configured s n ∧ ¬ reachable s n.

(** A configuration with several connections that is not marked a router. *)
Definition bad_arity (s : WorkflowSchema) : Prop :=
  ∃ nc, nc ∈ nodes s ∧ 1 < length (connections nc) ∧ is_router nc = false.

(** An edge that some configuration of [a] declares, whichever its
    position in the list. *)
Definition declared_edge (s : WorkflowSchema) (a b : node_id) : Prop :=
  ∃ nc, nc ∈ nodes s ∧ node nc = a ∧ b ∈ connections nc.

(** Invariant of the traversal: nodes that are visited and off the stack are
    finished; their successors are finished and no cycle goes through
    them. *)
Definition finished (st : dfs_state) (n : node_id) : Prop :=
  n ∈ visited st ∧ n ∉ rec_stack st.

Record dfs_inv (s : WorkflowSchema) (st : dfs_state) : Prop := mkDfsInv {
  inv_stack : rec_stack st ⊆ visited st;
  inv_mentioned : visited st ⊆ mentioned s;
  inv_closed : ∀ u v, finished st u → edge s u v → finished st v;
  inv_acyclic : ∀ u, finished st u → ¬ tc (edge s) u u
}.

(** Contract of one call [dfs(n)] entered in state [st]: every class on the
    stack reaches [n]. *)
Definition dfs_pre (s : WorkflowSchema) (st : dfs_state) (n : node_id) : Prop :=
  dfs_inv s st ∧ n ∈ mentioned s ∧ (n ∉ visited st) ∧
  (∀ g, g ∈ rec_stack st → rtc (edge s) g n).

Definition dfs_post (s : WorkflowSchema) (st : dfs_state) (n : node_id)
    (b : bool) (st' : dfs_state) : Prop :=
  if b then cyclic s
  else dfs_inv s st' ∧ visited st ⊆ visited st' ∧ n ∈ visited st' ∧
       rec_stack st' = rec_stack st.

Definition rec_ok (s : WorkflowSchema) (V : gset string)
    (rec : node_id → dfs_state → option (bool * dfs_state)) : Prop :=
  ∀ nb st0, V ⊆ visited st0 → dfs_pre s st0 nb →
    ∃ b st', rec nb st0 = Some (b, st') ∧ dfs_post s st0 nb b st'.

(** Invariant of the queue loop of [_get_reachable_nodes]. *)
Definition bfs_inv (s : WorkflowSchema) (R : gset string) (q : list node_id) : Prop :=
  (∀ x, x ∈ R ∨ x ∈ q → reachable s x) ∧
  (start s ∈ R ∨ start s ∈ q) ∧
  (∀ u v, u ∈ R → edge s u v → v ∈ R ∨ v ∈ q).

Definition bfs_universe (s : WorkflowSchema) : gset string :=
  {[start s]} ∪ mentioned s.

(** [validate] fails with the error that names the configured nodes out of
    reach of the start node, and no other node. *)
Definition names_unreachable (s : WorkflowSchema) : Prop :=
  ∃ U, validate s = Some (inl (UnreachableNodes U)) ∧
       ∀ n, n ∈ U ↔ configured s n ∧ ¬ reachable s n.

(** Outcomes of [validate]. *)
Definition raises (s : WorkflowSchema) : Prop :=
  ∃ e, validate s = Some (inl e).

Definition succeeds (s : WorkflowSchema) : Prop :=
  validate s = Some (inr ()).

End Validator.

(** ** Task context ([task.py]) *)

(** A metadata entry: the node-configuration map the runner stores under
    the key ["nodes"], or any other value. *)
Inductive meta_value :=
| MetaNodes (m : gmap string NodeConfig)
| MetaValue (v : value).

Module Task.

(** [task.TaskContext]. [nodes] maps a node name to the result record of
    that node. *)
Record TaskContext := mkContext {
  event : gmap string value;
  nodes : gmap string (gmap string value);
  metadata : gmap string meta_value;
  should_stop : bool
}.

(** [TaskContext(event=event)] *)
Definition new (ev : gmap string value) : TaskContext :=
  mkContext ev ∅ ∅ false.

(** [self.nodes\[node_name\] = {**self.nodes.get(node_name, {}), **kwargs}]:
    in the merged record a key of [kwargs] wins. *)
Definition update_node (ctx : TaskContext) (node_name : string)
    (kwargs : gmap string value) : TaskContext :=
  mkContext (event ctx)
    (<[node_name := kwargs ∪ default ∅ (nodes ctx !! node_name)]> (nodes ctx))
    (metadata ctx) (should_stop ctx).

(** [stop_workflow] *)
Definition stop_workflow (ctx : TaskContext) : TaskContext :=
  mkContext (event ctx) (nodes ctx) (metadata ctx) true.

(** [task_context.metadata\[k\] = v] *)
Definition set_metadata (ctx : TaskContext) (k : string) (v : meta_value) : TaskContext :=
  mkContext (event ctx) (nodes ctx) (<[k := v]> (metadata ctx)) (should_stop ctx).

(** The context after a successful [task_context.metadata.pop(k)]. *)
Definition pop_metadata (ctx : TaskContext) (k : string) : TaskContext :=
  mkContext (event ctx) (nodes ctx) (delete k (metadata ctx)) (should_stop ctx).

End Task.

Abbreviation TaskContext := Task.TaskContext.

(** ** Routers ([nodes/router.py]) and the runner ([workflow.py]) *)

Module Engine.

Section Classes.

(** Everything a node body can read and change besides the context it is
    given: services it calls, module state. *)
Context {world : Type}.

(** How a call of [process] ends: it returns a context, or raises and
    leaves the context it was given as it last mutated it. *)
Inductive process_result :=
| Returns (ctx : TaskContext)
| Raises (e : exn) (ctx : TaskContext).

(** [RouterNode.determine_next_node]: the class of the node it returns, if
    it returns one. *)
Definition rule : Type := world → TaskContext → option node_id.

(** The attributes of a [BaseRouter] instance. *)
Record BaseRouter := mkRouter {
  routes : list rule;
  fallback : option node_id
}.

(** The loop of [BaseRouter.route]. *)
Fixpoint first_match (rs : list rule) (w : world) (ctx : TaskContext) : option node_id :=
  match rs with
  | [] => None
  | route_node :: rest =>
    match route_node w ctx with
    | Some next_node => Some next_node
    | None => first_match rest w ctx
    end
  end.

(** [BaseRouter.route] *)
Definition route (r : BaseRouter) (w : world) (ctx : TaskContext) : option node_id :=
  match first_match (routes r) w ctx with
  | Some next_node => Some next_node
  | None => fallback r
  end.

(** A node class: a subclass of [BaseRouter], or any other [Node] with its
    [process] and, when the class defines one, its own [route] method. *)
Inductive node_class :=
| RouterClass (r : BaseRouter)
| PlainClass (process : world → TaskContext → process_result * world)
             (route_method : option rule).


(** The [route] attribute of an instance, if it has one. *)
Definition route_of (cls : node_class) : option rule :=
  match cls with
  | RouterClass r => Some (route r)
  | PlainClass _ rm => rm
  end.

(** A [Workflow] subclass: its schema and the node classes it names. *)
Record Workflow := mkWorkflow {
  workflow_schema : WorkflowSchema;
  class_of : node_id → node_class
}.

(** The inner loop of [_initialize_nodes]. *)
Definition add_connections (cs : list node_id) (m : gmap string NodeConfig)
    : gmap string NodeConfig :=
  foldl (λ m c, match m !! c with
                | Some _ => m
                | None => <[c := default_config c]> m
                end) m cs.

(** [_initialize_nodes] over the remaining configurations. *)
Definition initialize_nodes_from (ncs : list NodeConfig) (m : gmap string NodeConfig)
    : gmap string NodeConfig :=
  foldl (λ m nc, add_connections (connections nc) (<[node nc := nc]> m)) m ncs.

(** [self.nodes], as [__init__] sets it. *)
Definition self_nodes (wf : Workflow) : gmap string NodeConfig :=
  initialize_nodes_from (nodes (workflow_schema wf)) ∅.

(** [Workflow.__init__]: the schema is validated, then the node map is
    built; [inl e] is the error the validator raised. *)
Definition init (wf : Workflow)
    : option (Validator.validation_error + gmap string NodeConfig) :=
  match Validator.validate (workflow_schema wf) with
  | None => None
  | Some (inl e) => Some (inl e)
  | Some (inr _) => Some (inr (self_nodes wf))
  end.

(** What a run does, in order: the four logging calls of [__run] and
    [node_context] with the node name they format into their message,
    calls of [process] with the context given and the way the call ended,
    calls of [route]. *)
Inductive trace_event :=
| LogStarting (node_name : string)
| LogError (node_name : string) (msg : string)
| LogFinished (node_name : string)
| LogStopping
| Process (n : node_id) (ctx : TaskContext) (res : process_result)
| Route (n : node_id) (ctx : TaskContext) (res : exn + option node_id).

Definition key_error (k : string) : exn := mkExn "KeyError" k.
Definition attribute_error (a : string) : exn := mkExn "AttributeError" a.

(** [_get_next_node_class] with [_handle_router]. *)
Definition get_next_node_class (wf : Workflow) (current_node_class : node_id)
    (w : world) (ctx : TaskContext) : list trace_event * (exn + option node_id) :=
  match find_config (workflow_schema wf) current_node_class with
  | None => ([], inr None)
  | Some node_config =>
    match connections node_config with
    | [] => ([], inr None)
    | first :: _ =>
      if is_router node_config then
        match self_nodes wf !! current_node_class with
        | None => ([], inl (key_error current_node_class))
        | Some cfg =>
          match route_of (class_of wf (node cfg)) with
          | None =>
            let e := attribute_error "route" in
            ([Route current_node_class ctx (inl e)], inl e)
          | Some rt =>
            let next_node := rt w ctx in
            ([Route current_node_class ctx (inr next_node)], inr next_node)
          end
        end
      else ([], inr (Some first))
    end
  end.

(** How one pass of the [while] loop ends. *)
Inductive step_result :=
| Next (next : option node_id) (ctx : TaskContext)
| Break (ctx : TaskContext)
| Abort (e : exn) (ctx : TaskContext).

(** The body of the [while] loop of [__run] for [current_node_class]. *)
Definition iteration (wf : Workflow) (current_node_class : node_id)
    (w : world) (ctx : TaskContext) : list trace_event * step_result * world :=
  if Task.should_stop ctx then
    ([LogStopping], Break ctx, w)
  else
    match self_nodes wf !! current_node_class with
    | None => ([], Abort (key_error current_node_class) ctx, w)
    | Some cfg =>
      let current_node := node cfg in
      let '(body, res, w1) :=
        match class_of wf current_node with
        | RouterClass _ => ([], Returns ctx, w)
        | PlainClass process _ =>
          let '(res, w1) := process w ctx in
          ([Process current_node ctx res], res, w1)
        end in
      match res with
      | Raises e ctx' =>
        (LogStarting current_node_class :: body ++
           [LogError current_node_class (exn_msg e);
            LogFinished current_node_class],
         Abort e ctx', w1)
      | Returns ctx' =>
        let '(routing, next) := get_next_node_class wf current_node_class w1 ctx' in
        (LogStarting current_node_class :: body ++
           LogFinished current_node_class :: routing,
         match next with
         | inl e => Abort e ctx'
         | inr next_class => Next next_class ctx'
         end, w1)
      end
    end.

(** The terminal states of the loop. *)
Inductive terminal := Completed | Stopped.

(** How the [while] loop is left. *)
Inductive loop_result :=
| Exited (t : terminal) (ctx : TaskContext)
| Aborted (e : exn) (ctx : TaskContext).

(** The [while current_node_class:] loop of [__run]; [fuel] bounds the
    number of passes, [None] is a loop that needs more. *)
Fixpoint run_loop (wf : Workflow) (fuel : nat) (current : option node_id)
    (w : world) (ctx : TaskContext) : option (list trace_event * loop_result * world) :=
  match current with
  | None => Some ([], Exited Completed ctx, w)
  | Some current_node_class =>
    match fuel with
    | O => None
    | S fuel' =>
      let '(evs, r, w1) := iteration wf current_node_class w ctx in
      match r with
      | Break ctx' => Some (evs, Exited Stopped ctx', w1)
      | Abort e ctx' => Some (evs, Aborted e ctx', w1)
      | Next next ctx' =>
        match run_loop wf fuel' next w1 ctx' with
        | None => None
        | Some (evs', r', w2) => Some (evs ++ evs', r', w2)
        end
      end
    end
  end.

(** What the caller of [run] gets: the context, with the terminal state the
    loop was left in, or an exception and the context as it then is. *)
Inductive run_result :=
| Returned (t : terminal) (ctx : TaskContext)
| Raised (e : exn) (ctx : TaskContext).

(** The context the loop starts with: a new context that holds the parsed
    event, and the node map of the workflow under ["nodes"].  The map is
    held by value in this module: it is the runner for node bodies that
    leave the dict [self.nodes] alone.  [Instance] is the runner on the
    dict itself. *)
Definition initial_context (wf : Workflow) (parsed : gmap string value) : TaskContext :=
  Task.set_metadata (Task.new parsed) "nodes" (MetaNodes (self_nodes wf)).

(** [__run] ([run] and [run_async] both await it). *)
Definition run (wf : Workflow) (fuel : nat) (w : world) (event : gmap string value)
    : option (list trace_event * run_result * world) :=
  match event_schema (workflow_schema wf) event with
  | inl e => Some ([], Raised e (Task.new event), w)
  | inr parsed =>
    match run_loop wf fuel (Some (start (workflow_schema wf))) w
            (initial_context wf parsed) with
    | None => None
    | Some (evs, Aborted e ctx, w') => Some (evs, Raised e ctx, w')
    | Some (evs, Exited t ctx, w') =>
      match Task.metadata ctx !! "nodes" with
      | None => Some (evs, Raised (key_error "nodes") ctx, w')
      | Some _ => Some (evs, Returned t (Task.pop_metadata ctx "nodes"), w')
      end
    end
  end.

(** *** Reading a trace *)

(** The calls of [process], in order. *)
Definition calls (evs : list trace_event) : list (node_id * TaskContext * process_result) :=
  omap (λ ev, match ev with Process n c r => Some (n, c, r) | _ => None end) evs.

(** The nodes whose pass of the loop began, in order. *)
Definition visited_sequence (evs : list trace_event) : list node_id :=
  omap (λ ev, match ev with LogStarting n => Some n | _ => None end) evs.

(** The nodes on which [route] was called, in order. *)
Definition routed (evs : list trace_event) : list node_id :=
  omap (λ ev, match ev with Route n _ _ => Some n | _ => None end) evs.

(** The context the runner holds after the events [evs], starting with
    [ctx]: what the last returning [process] gave back. *)
Definition last_context (ctx : TaskContext) (evs : list trace_event) : TaskContext :=
  foldl (λ c ev, match ev with Process _ _ (Returns c') => c' | _ => c end) ctx evs.

Definition loop_context (r : loop_result) : TaskContext :=
  match r with Exited _ c => c | Aborted _ c => c end.

Definition result_context (r : run_result) : TaskContext :=
  match r with Returned _ c => c | Raised _ c => c end.

(** *** Notions the properties are stated with *)


(** The node bodies and rules of [wf] are deterministic: what they return
    is a function of the context alone. *)
Definition rule_deterministic (rl : rule) : Prop :=
  ∀ w1 w2 ctx, rl w1 ctx = rl w2 ctx.

Definition class_deterministic (cls : node_class) : Prop :=
  match cls with
  | RouterClass r => ∀ rl, rl ∈ routes r → rule_deterministic rl
  | PlainClass process rm =>
    (∀ w1 w2 ctx, (process w1 ctx).1 = (process w2 ctx).1) ∧
    (∀ rl, rm = Some rl → rule_deterministic rl)
  end.

Definition deterministic (wf : Workflow) : Prop :=
  ∀ n, class_deterministic (class_of wf n).

(** No node body of [wf] removes or replaces the metadata entry ["nodes"]. *)
Definition keeps_nodes_entry (wf : Workflow) : Prop :=
  ∀ n process rm w ctx ctx' w',
    class_of wf n = PlainClass process rm →
    process w ctx = (Returns ctx', w') →
    Task.metadata ctx' !! "nodes" = Task.metadata ctx !! "nodes".

(** Every entry of a node map is filed under the class it configures. *)
Definition keyed (m : gmap string NodeConfig) : Prop :=
  ∀ n cfg, m !! n = Some cfg → node cfg = n.

(** What one pass does, by the call of [process] it makes. *)
Inductive pass_shape (cur : node_id) (ctx : TaskContext)
    : list trace_event → step_result → Prop :=
| pass_break :
    Task.should_stop ctx = true →
    pass_shape cur ctx [LogStopping] (Break ctx)
| pass_key_error :
    pass_shape cur ctx [] (Abort (key_error cur) ctx)
| pass_router routing r :
    Task.should_stop ctx = false →
    calls routing = [] → (∃ e, r = Abort e ctx) ∨ (∃ next, r = Next next ctx) →
    pass_shape cur ctx (LogStarting cur :: LogFinished cur :: routing) r
| pass_raises e ctx' :
    Task.should_stop ctx = false →
    pass_shape cur ctx
      [LogStarting cur; Process cur ctx (Raises e ctx');
       LogError cur (exn_msg e); LogFinished cur] (Abort e ctx')
| pass_returns routing ctx' r :
    Task.should_stop ctx = false →
    calls routing = [] → (∃ e, r = Abort e ctx') ∨ (∃ next, r = Next next ctx') →
    pass_shape cur ctx
      (LogStarting cur :: Process cur ctx (Returns ctx') :: LogFinished cur :: routing) r.

(** *** More readers and notions *)

(** The [Starting] and [Finished] records that [node_context] logs around
    a node, in order: [true] for [Starting]. *)
Definition brackets (evs : list trace_event) : list (bool * string) :=
  omap (λ ev, match ev with
              | LogStarting n => Some (true, n)
              | LogFinished n => Some (false, n)
              | _ => None
              end) evs.

(** The error records of [node_context], in order: the node name and the
    message. *)
Definition logged_errors (evs : list trace_event) : list (string * string) :=
  omap (λ ev, match ev with LogError n msg => Some (n, msg) | _ => None end) evs.

(** The calls of [process] that raised, with [str(e)]. *)
Definition raising_calls (cs : list (node_id * TaskContext * process_result))
    : list (string * string) :=
  omap (λ c, match c with
             | (n, _, Raises e _) => Some (n, exn_msg e)
             | _ => None
             end) cs.


End Classes.

Arguments rule : clear implicits.
Arguments BaseRouter : clear implicits.
Arguments node_class : clear implicits.
Arguments Workflow : clear implicits.

End Engine.

(** ** A workflow instance from run to run ([workflow.py]) *)

(** [__run] stores the dict [self.nodes] itself under [metadata\["nodes"\]],
    not a copy of it, and reads [self.nodes] again on every pass and in
    every later run: a node body that changes the dict it finds there
    changes the node map of the workflow.  [Engine] holds the map by value,
    which is the runner for node bodies that leave the dict alone (see
    [InstanceFacts.run_on_copy]); here the dict is part of the state that
    the runner threads through the node bodies and hands on to the next
    run. *)
Module Instance.
Import Engine.

(** What a node body can reach besides the fields of the context: the dict
    [self.nodes] of the workflow instance, and everything else. *)
Abbreviation state world := (gmap string NodeConfig * world)%type.

Section Instance.
Context {world : Type}.

(** Who reads [metadata\["nodes"\]] finds the dict as it is now: a context
    is kept with the content of the dict at that entry, as long as the
    entry is there. *)
Definition view (dict : gmap string NodeConfig) (ctx : TaskContext) : TaskContext :=
  match Task.metadata ctx !! "nodes" with
  | Some (MetaNodes _) => Task.set_metadata ctx "nodes" (MetaNodes dict)
  | _ => ctx
  end.

(** [_get_next_node_class] with [_handle_router]; [self.nodes] is read
    from the state. *)
Definition get_next_node_class (wf : Workflow (state world))
    (current_node_class : node_id) (s : state world) (ctx : TaskContext)
    : list trace_event * (exn + option node_id) :=
  match find_config (workflow_schema wf) current_node_class with
  | None => ([], inr None)
  | Some node_config =>
    match connections node_config with
    | [] => ([], inr None)
    | first :: _ =>
      if is_router node_config then
        match s.1 !! current_node_class with
        | None => ([], inl (key_error current_node_class))
        | Some cfg =>
          match route_of (class_of wf (node cfg)) with
          | None =>
            let e := attribute_error "route" in
            ([Route current_node_class ctx (inl e)], inl e)
          | Some rt =>
            let next_node := rt s ctx in
            ([Route current_node_class ctx (inr next_node)], inr next_node)
          end
        end
      else ([], inr (Some first))
    end
  end.

(** The body of the [while] loop of [__run]: [self.nodes] is read from the
    state, and [process] leaves a state. *)
Definition iteration (wf : Workflow (state world)) (current_node_class : node_id)
    (s : state world) (ctx : TaskContext)
    : list trace_event * step_result * state world :=
  if Task.should_stop ctx then
    ([LogStopping], Break ctx, s)
  else
    match s.1 !! current_node_class with
    | None => ([], Abort (key_error current_node_class) ctx, s)
    | Some cfg =>
      let current_node := node cfg in
      let '(body, res, s1) :=
        match class_of wf current_node with
        | RouterClass _ => ([], Returns ctx, s)
        | PlainClass process _ =>
          let '(res, s1) := process s ctx in
          ([Process current_node ctx res], res, s1)
        end in
      match res with
      | Raises e ctx' =>
        (LogStarting current_node_class :: body ++
           [LogError current_node_class (exn_msg e);
            LogFinished current_node_class],
         Abort e (view s1.1 ctx'), s1)
      | Returns ctx' =>
        let task_context := view s1.1 ctx' in
        let '(routing, next) :=
          get_next_node_class wf current_node_class s1 task_context in
        (LogStarting current_node_class :: body ++
           LogFinished current_node_class :: routing,
         match next with
         | inl e => Abort e task_context
         | inr next_class => Next next_class task_context
         end, s1)
      end
    end.

(** The [while current_node_class:] loop of [__run]; [fuel] bounds the
    number of passes. *)
Fixpoint run_loop (wf : Workflow (state world)) (fuel : nat) (current : option node_id)
    (s : state world) (ctx : TaskContext)
    : option (list trace_event * loop_result * state world) :=
  match current with
  | None => Some ([], Exited Completed ctx, s)
  | Some current_node_class =>
    match fuel with
    | O => None
    | S fuel' =>
      let '(evs, r, s1) := iteration wf current_node_class s ctx in
      match r with
      | Break ctx' => Some (evs, Exited Stopped ctx', s1)
      | Abort e ctx' => Some (evs, Aborted e ctx', s1)
      | Next next ctx' =>
        match run_loop wf fuel' next s1 ctx' with
        | None => None
        | Some (evs', r', s2) => Some (evs ++ evs', r', s2)
        end
      end
    end
  end.

(** [task_context.metadata\["nodes"\] = self.nodes] *)
Definition initial_context (s : state world) (parsed : gmap string value) : TaskContext :=
  Task.set_metadata (Task.new parsed) "nodes" (MetaNodes s.1).

(** [__run] on an instance whose dict [self.nodes] and surroundings are
    [s]; the state that it leaves is the one the next run finds. *)
Definition run (wf : Workflow (state world)) (fuel : nat) (s : state world)
    (event : gmap string value)
    : option (list trace_event * run_result * state world) :=
  match event_schema (workflow_schema wf) event with
  | inl e => Some ([], Raised e (Task.new event), s)
  | inr parsed =>
    match run_loop wf fuel (Some (start (workflow_schema wf))) s
            (initial_context s parsed) with
    | None => None
    | Some (evs, Aborted e ctx, s') => Some (evs, Raised e ctx, s')
    | Some (evs, Exited t ctx, s') =>
      match Task.metadata ctx !! "nodes" with
      | None => Some (evs, Raised (key_error "nodes") ctx, s')
      | Some _ => Some (evs, Returned t (Task.pop_metadata ctx "nodes"), s')
      end
    end
  end.


(** A node class that does not look at the dict, as a node class here. *)
Definition lift_rule (rl : rule world) : rule (state world) :=
  λ s ctx, rl s.2 ctx.

Definition lift_class (cls : node_class world) : node_class (state world) :=
  match cls with
  | RouterClass r => RouterClass (mkRouter (lift_rule <$> routes r) (fallback r))
  | PlainClass process rm =>
    PlainClass (λ s ctx, let '(res, w') := process s.2 ctx in (res, (s.1, w')))
               (lift_rule <$> rm)
  end.

Definition lift (wf : Workflow world) : Workflow (state world) :=
  mkWorkflow (workflow_schema wf) (λ n, lift_class (class_of wf n)).

(** *** Notions the properties are stated with *)

(** The node bodies and rules of [wf] are deterministic: what they return,
    and what they leave in the dict, is a function of the context and of
    the dict alone. *)
Definition rule_deterministic (rl : rule (state world)) : Prop :=
  ∀ dict w1 w2 ctx, rl (dict, w1) ctx = rl (dict, w2) ctx.

Definition class_deterministic (cls : node_class (state world)) : Prop :=
  match cls with
  | RouterClass r => ∀ rl, rl ∈ routes r → rule_deterministic rl
  | PlainClass process rm =>
    (∀ dict w1 w2 ctx,
       (process (dict, w1) ctx).1 = (process (dict, w2) ctx).1 ∧
       (process (dict, w1) ctx).2.1 = (process (dict, w2) ctx).2.1) ∧
    (∀ rl, rm = Some rl → rule_deterministic rl)
  end.

Definition deterministic (wf : Workflow (state world)) : Prop :=
  ∀ n, class_deterministic (class_of wf n).


(** The entry ["nodes"] of [ctx], when it holds a node map, holds [dict]. *)
Definition in_sync (dict : gmap string NodeConfig) (ctx : TaskContext) : Prop :=
  ∀ m, Task.metadata ctx !! "nodes" = Some (MetaNodes m) → m = dict.

(** The node bodies of a workflow of [Engine] put no other node map under
    ["nodes"] than the one of the workflow. *)
Definition keeps_in_sync (wf : Workflow world) : Prop :=
  ∀ n process rm w ctx,
    class_of wf n = PlainClass process rm → in_sync (self_nodes wf) ctx →
    match (process w ctx).1 with
    | Returns ctx' => in_sync (self_nodes wf) ctx'
    | Raises _ ctx' => in_sync (self_nodes wf) ctx'
    end.

(** The outcome of a pass of [Engine], with the dict beside it. *)
Definition with_dict (wf : Workflow world)
    (r : list trace_event * step_result * world)
    : list trace_event * step_result * state world :=
  (r.1.1, r.1.2, (self_nodes wf, r.2)).

(** The context a pass leaves. *)
Definition step_context (r : step_result) : TaskContext :=
  match r with Next _ c => c | Break c => c | Abort _ c => c end.

End Instance.

End Instance.

(** ** Concurrent groups ([nodes/concurrent.py]) *)

Module Concurrent.

(** What a sibling's [process] returns: the context object it was given,
    which every sibling shares, or some other context. *)
Inductive retval :=
| SharedContext
| OtherContext (c : TaskContext).

(** A coroutine as the event loop sees it.  [Resume effect next]: when it is
    run on the shared context [c] it leaves [effect c] and then is
    [next c], suspended again, returned or raised. *)
Inductive coroutine :=
| Resume (effect : TaskContext → TaskContext) (next : TaskContext → coroutine)
| Return (r : retval)
| Raise (e : exn).

(** What happened to the task at some position of the group. *)
Inductive task_event :=
| Suspended
| Done (r : retval)
| Failed (e : exn).

(** How awaiting [asyncio.gather] ends: the list of results, or the first
    exception a task raised; with the shared context as it then is. *)
Inductive gather_result :=
| Gathered (results : list retval) (shared : TaskContext)
| Propagated (e : exn) (shared : TaskContext).

(** The results of the tasks when all of them have returned. *)
Fixpoint all_returned (pool : list coroutine) : option (list retval) :=
  match pool with
  | [] => Some []
  | Return r :: rest => cons r <$> all_returned rest
  | _ :: _ => None
  end.

(** What one resumption made of a task: what it is now. *)
Definition after_resume (co : coroutine) : task_event :=
  match co with
  | Resume _ _ => Suspended
  | Return r => Done r
  | Raise e => Failed e
  end.

(** [asyncio.gather] cancels nothing when a task raises: the awaiting
    caller is resumed with the exception only after the tasks that are
    queued before it have run.  [schedule] says which tasks these are, in
    order, and ends where the caller is resumed; [None] is a task that has
    finished.  What these resumptions return or raise is dropped. *)
Fixpoint drain (schedule : list nat) (shared : TaskContext)
    (pool : list (option coroutine)) : list (nat * task_event) * TaskContext :=
  match schedule with
  | [] => ([], shared)
  | i :: schedule' =>
    match pool !! i with
    | Some (Some (Resume effect next)) =>
      let co := next shared in
      let left := match co with Resume _ _ => Some co | _ => None end in
      let '(evs, c) := drain schedule' (effect shared) (<[i := left]> pool) in
      ((i, after_resume co) :: evs, c)
    | Some (Some (Raise e)) =>
      let '(evs, c) := drain schedule' shared (<[i := None]> pool) in
      ((i, Failed e) :: evs, c)
    | _ => drain schedule' shared pool
    end
  end.

(** [await asyncio.gather(coroutines)], a call into the standard library,
    by what its documentation says, on an event loop that resumes the tasks
    in the order [schedule] (positions in the argument list): gather is done
    once every task has returned and gives their results in the order of
    its arguments; the first exception a task raises is the one the
    awaiting caller gets, once the tasks still queued have run.  [None]:
    tasks are pending, none has raised, and the schedule says no more. *)
Fixpoint gather (schedule : list nat) (shared : TaskContext) (pool : list coroutine)
    : option (list (nat * task_event) * gather_result) :=
  match all_returned pool with
  | Some results => Some ([], Gathered results shared)
  | None =>
    match schedule with
    | [] => None
    | i :: schedule' =>
      match pool !! i with
      | Some (Resume effect next) =>
        match next shared with
        | Raise e =>
          let '(evs, c) := drain schedule' (effect shared) (<[i := None]> (Some <$> pool)) in
          Some ((i, Failed e) :: evs, Propagated e c)
        | co =>
          match gather schedule' (effect shared) (<[i := co]> pool) with
          | None => None
          | Some (evs, res) => Some ((i, after_resume co) :: evs, res)
          end
        end
      | Some (Raise e) =>
        let '(evs, c) := drain schedule' shared (<[i := None]> (Some <$> pool)) in
        Some ((i, Failed e) :: evs, Propagated e c)
      | _ => gather schedule' shared pool
      end
    end
  end.

(** Errors raised before any sibling is started. *)
Definition key_error (k : string) : exn := mkExn "KeyError" k.
Definition type_error (m : string) : exn := mkExn "TypeError" m.

(** [ConcurrentNode.execute_nodes_concurrently] of the class [self];
    [process c] is the coroutine that [c().process(task_context)] creates. *)
Definition execute_nodes_concurrently (process : node_id → coroutine)
    (self : node_id) (schedule : list nat) (task_context : TaskContext)
    : option (list (nat * task_event) * gather_result) :=
  match Task.metadata task_context !! "nodes" with
  | None => Some ([], Propagated (key_error "nodes") task_context)
  | Some (MetaValue _) =>
    Some ([], Propagated (type_error "not subscriptable") task_context)
  | Some (MetaNodes configs) =>
    match configs !! self with
    | None => Some ([], Propagated (key_error self) task_context)
    | Some node_config =>
      match concurrent_nodes node_config with
      | None => Some ([], Propagated (type_error "not iterable") task_context)
      | Some siblings => gather schedule task_context (map process siblings)
      end
    end
  end.

(** *** The siblings on their own *)

(** One resumption of the task at position [i] that does not raise: the
    task runs on the shared context up to its next suspension or to its
    return. *)
Inductive resumed
    : TaskContext * list coroutine → nat * task_event →
      TaskContext * list coroutine → Prop :=
| resumed_task shared pool i effect next :
    pool !! i = Some (Resume effect next) →
    (∀ e, next shared ≠ Raise e) →
    resumed (shared, pool) (i, after_resume (next shared))
            (effect shared, <[i := next shared]> pool).

(** A run of the siblings in which none raises, resumption after
    resumption. *)
Inductive siblings_run
    : TaskContext * list coroutine → list (nat * task_event) →
      TaskContext * list coroutine → Prop :=
| siblings_run_nil s : siblings_run s [] s
| siblings_run_cons s1 ev s2 evs s3 :
    resumed s1 ev s2 → siblings_run s2 evs s3 → siblings_run s1 (ev :: evs) s3.

(** The task at position [i] raises [e] when it is resumed in state [s]. *)
Definition raises_at (s : TaskContext * list coroutine) (i : nat) (e : exn) : Prop :=
  s.2 !! i = Some (Raise e) ∨
  ∃ effect next, s.2 !! i = Some (Resume effect next) ∧ next s.1 = Raise e.

(** A [process] that completes without error whatever the shared context
    holds when it is resumed, and one that raises whatever it holds. *)
Inductive never_raises : coroutine → Prop :=
| never_raises_return r : never_raises (Return r)
| never_raises_resume effect next :
    (∀ c, never_raises (next c)) → never_raises (Resume effect next).

Inductive always_raises : coroutine → Prop :=
| always_raises_raise e : always_raises (Raise e)
| always_raises_resume effect next :
    (∀ c, always_raises (next c)) → always_raises (Resume effect next).

(** A sibling by its script: the segments that it runs on the shared
    context, awaiting between them something that does not depend on the
    context, and the value that it returns. *)
Abbreviation script := (list (TaskContext → TaskContext) * retval)%type.

Fixpoint play (effects : list (TaskContext → TaskContext)) (r : retval) : coroutine :=
  match effects with
  | [] => Return r
  | effect :: rest => Resume effect (λ _, play rest r)
  end.

Definition player (s : script) : coroutine := play s.1 s.2.

(** The context after the segments [effects] ran on it one after the
    other. *)
Definition apply_all (effects : list (TaskContext → TaskContext)) (c : TaskContext)
    : TaskContext :=
  foldl (λ c effect, effect c) c effects.

(** The context after each sibling ran to its end, one sibling after the
    other in the order of the list. *)
Definition run_in_turn (scripts : list script) (c : TaskContext) : TaskContext :=
  foldl (λ c s, apply_all s.1 c) c scripts.

(** Segments of different siblings commute, as they do when the siblings
    write to different places. *)
Definition independent (scripts : list script) : Prop :=
  ∀ i j si sj e e', i ≠ j → scripts !! i = Some si → scripts !! j = Some sj →
    e ∈ si.1 → e' ∈ sj.1 → ∀ c, e (e' c) = e' (e c).

End Concurrent.

(** ** The generated workflow ([workflows/placeholder_workflow.py]) *)

Module Placeholder.
Import Engine.

Section Placeholder.
Context {world : Type}.

(** [InitialNode]: [process] returns the context it was given. *)
Definition InitialNode : node_class world :=
  PlainClass (λ w task_context, (Returns task_context, w)) None.

(** [PlaceholderWorkflow], over the event schema of the project. *)
Definition PlaceholderWorkflow
    (PlaceholderEventSchema : gmap string value → exn + gmap string value)
    : Workflow world :=
  mkWorkflow
    (mkSchema (Some "") PlaceholderEventSchema "InitialNode"
       [mkNodeConfig "InitialNode" [] false (Some "") (Some [])])
    (λ _, InitialNode).

End Placeholder.

End Placeholder.

(** ** Worked examples *)

Module Examples.
Import Engine Concurrent.

Definition config (n : node_id) (cs : list node_id) (router : bool) : NodeConfig :=
  mkNodeConfig n cs router None (Some []).

Definition parse_any (ev : gmap string value) : exn + gmap string value := inr ev.

Definition schema (first : node_id) (ncs : list NodeConfig) : WorkflowSchema :=
  mkSchema None parse_any first ncs.

(** Scenario 1 of the specification: A, then the router R, then B or C. *)
Definition scenario_schema : WorkflowSchema :=
  schema "A" [config "A" ["R"] false; config "R" ["B"; "C"] true;
              config "B" [] false; config "C" [] false].

(** A body that records its node as done and counts the call in the world. *)
Definition record_done (name : node_id) : node_class nat :=
  PlainClass (λ w ctx, (Returns (Task.update_node ctx name {["done" := VBool true]}), S w)) None.

Definition flag_rule : rule nat :=
  λ _ ctx, if decide (Task.event ctx !! "flag" = Some (VBool true)) then Some "B" else None.

Definition scenario_router : BaseRouter nat := mkRouter [flag_rule] (Some "C").

Definition scenario : Workflow nat :=
  mkWorkflow scenario_schema
    (λ n, if decide (n = "R") then RouterClass scenario_router else record_done n).

Definition flag_on : gmap string value := {["flag" := VBool true]}.
Definition flag_off : gmap string value := {["flag" := VBool false]}.

(** Scenario 2: two plain nodes that point at each other. *)
Definition two_cycle : WorkflowSchema :=
  schema "A" [config "A" ["B"] false; config "B" ["A"] false].

(** B and C cannot be reached from A. *)
Definition island : WorkflowSchema :=
  schema "A" [config "A" [] false; config "B" ["C"] false; config "C" [] false].

(** B and C cannot be reached from A and point at each other. *)
Definition island_cycle : WorkflowSchema :=
  schema "A" [config "A" [] false; config "B" ["C"] false; config "C" ["B"] false].


Definition two_cycle_workflow : Workflow nat :=
  mkWorkflow two_cycle record_done.


(** A plain node marked as a router, with a [route] method of its own. *)
Definition mixed : Workflow nat :=
  mkWorkflow (schema "M" [config "M" ["B"; "C"] true; config "B" [] false; config "C" [] false])
    (λ n, if decide (n = "M")
          then PlainClass (λ w ctx, (Returns (Task.update_node ctx "M" {["seen" := VBool true]}), S w))
                          (Some (λ _ _, Some "C"))
          else record_done n).

(** A sets the stop flag; B would follow. *)
Definition stopper : Workflow nat :=
  mkWorkflow (schema "A" [config "A" ["B"] false; config "B" [] false])
    (λ n, if decide (n = "A")
          then PlainClass (λ w ctx, (Returns (Task.stop_workflow (Task.update_node ctx "A" {["done" := VBool true]})), S w)) None
          else record_done n).

(** A writes a result and raises. *)
Definition boom : exn := mkExn "ValueError" "boom".

Definition failing : Workflow nat :=
  mkWorkflow (schema "A" [config "A" ["B"] false; config "B" [] false])
    (λ n, if decide (n = "A")
          then PlainClass (λ w ctx, (Raises boom (Task.update_node ctx "A" {["partial" := VInt 1]}), S w)) None
          else record_done n).

(** A removes the entry ["nodes"] from the metadata; B follows. *)
Definition forgetful : Workflow nat :=
  mkWorkflow (schema "A" [config "A" ["B"] false; config "B" [] false])
    (λ n, if decide (n = "A")
          then PlainClass (λ w ctx, (Returns (Task.pop_metadata ctx "nodes"), S w)) None
          else record_done n).

(** A group F with the siblings X, Y, Z; each writes its result and
    suspends once before it returns. *)
Definition writes (name : node_id) : coroutine :=
  Resume (λ c, Task.update_node c name {["started" := VBool true]})
    (λ _, Resume (λ c, Task.update_node c name {["done" := VBool true]})
            (λ _, Return SharedContext)).

Definition group_process (y : coroutine) (n : node_id) : coroutine :=
  if decide (n = "Y") then y else writes n.

Definition group_configs : gmap string NodeConfig :=
  {["F" := mkNodeConfig "F" [] false None (Some ["X"; "Y"; "Z"])]}.

Definition group_context : TaskContext :=
  Task.set_metadata (Task.new ∅) "nodes" (MetaNodes group_configs).

(** Scenario 3: Y writes that it has started and raises. *)
Definition raising_Y : coroutine :=
  Resume (λ c, Task.update_node c "Y" {["started" := VBool true]}) (λ _, Raise boom).

(** A router whose fallback is the router itself; B is its only
    connection. *)
Definition spinner : Workflow nat :=
  mkWorkflow (schema "R" [config "R" ["B"] true; config "B" [] false])
    (λ n, if decide (n = "R") then RouterClass (mkRouter [] (Some "R")) else record_done n).

(** A subclass of [BaseRouter] with a fallback, whose configuration lists
    a connection and is not marked [is_router]. *)
Definition unmarked : Workflow nat :=
  mkWorkflow (schema "R" [config "R" ["B"] false; config "B" [] false; config "C" [] false])
    (λ n, if decide (n = "R") then RouterClass (mkRouter [] (Some "C")) else record_done n).


(** A workflow whose schema configures no node. *)
Definition nothing : Workflow nat :=
  mkWorkflow (schema "A" []) record_done.

(** A workflow whose only node is the group F. *)
Definition group_workflow : Workflow nat :=
  mkWorkflow (schema "F" [mkNodeConfig "F" [] false None (Some ["X"; "Y"; "Z"])])
    record_done.

(** The segments of [writes]. *)
Definition group_script (name : node_id) : script :=
  ([λ c, Task.update_node c name {["started" := VBool true]};
    λ c, Task.update_node c name {["done" := VBool true]}], SharedContext).

End Examples.

(** * Properties *)

Module ValidatorFacts.
Import Validator Examples.

Section Graph.
Context (s : WorkflowSchema).

Lemma find_config_Some n nc :
  find_config s n = Some nc → nc ∈ nodes s ∧ node nc = n.
Proof.
  unfold find_config. intros H.
  apply find_some in H as [Hin Hb].
  apply bool_decide_eq_true in Hb. split; [by apply list_elem_of_In | done].
Qed.

Lemma find_config_None n :
  find_config s n = None → ¬ configured s n.
Proof.
  unfold find_config. intros H [nc [Hin Hn]].
  apply list_elem_of_In in Hin. apply (find_none _ _ H) in Hin.
  apply bool_decide_eq_false in Hin. done.
Qed.

Lemma mentioned_node nc : nc ∈ nodes s → node nc ∈ mentioned s.
Proof.
  intros Hin. unfold mentioned. apply elem_of_list_to_set.
  apply list_elem_of_In, in_flat_map. exists nc.
  split; [by apply list_elem_of_In | by left].
Qed.

Lemma mentioned_connection nc b :
  nc ∈ nodes s → b ∈ connections nc → b ∈ mentioned s.
Proof.
  intros Hin Hb. unfold mentioned. apply elem_of_list_to_set.
  apply list_elem_of_In, in_flat_map. exists nc.
  split; [by apply list_elem_of_In | right; by apply list_elem_of_In].
Qed.

Lemma edge_configured a b : edge s a b → configured s a.
Proof.
  unfold edge, successors. destruct (find_config s a) as [nc|] eqn:E.
  - intros _. apply find_config_Some in E as [? ?]. by exists nc.
  - intros H. by apply elem_of_nil in H.
Qed.

Lemma edge_mentioned a b : edge s a b → a ∈ mentioned s ∧ b ∈ mentioned s.
Proof.
  unfold edge, successors. destruct (find_config s a) as [nc|] eqn:E.
  - intros H. apply find_config_Some in E as [Hin <-].
    split; [by apply mentioned_node | by eapply mentioned_connection].
  - intros H. by apply elem_of_nil in H.
Qed.

Lemma tc_first_edge a : tc (edge s) a a → ∃ v, edge s a v ∧ rtc (edge s) v a.
Proof.
  intros H. inversion H; subst.
  - exists a. split; [done | apply rtc_refl].
  - eexists. split; [done | by apply tc_rtc].
Qed.


Lemma finished_closed_rtc st u v :
  dfs_inv s st → finished st u → rtc (edge s) u v → finished st v.
Proof.
  intros Hinv Hu Hr. induction Hr as [|x y z Hxy _ IH]; [done|].
  apply IH. by eapply inv_closed.
Qed.

Lemma dfs_inv_enter st n :
  dfs_inv s st → n ∈ mentioned s → n ∉ visited st →
  dfs_inv s (mkDfs ({[n]} ∪ visited st) ({[n]} ∪ rec_stack st)).
Proof.
  intros [Hs Hm Hc Ha] Hn Hv. split; simpl.
  - set_solver.
  - set_solver.
  - intros u v [Hu1 Hu2] He. simpl in *.
    assert (finished st u) as Hfu by (split; set_solver).
    destruct (Hc u v Hfu He) as [Hv1 Hv2]. split; simpl; set_solver.
  - intros u [Hu1 Hu2]. simpl in *. apply Ha. split; set_solver.
Qed.

Lemma dfs_inv_leave st n :
  dfs_inv s st → n ∈ rec_stack st →
  (∀ v, edge s n v → finished st v) →
  dfs_inv s (mkDfs (visited st) (rec_stack st ∖ {[n]})).
Proof.
  intros Hinv Hn Hsucc. pose proof Hinv as [Hs Hm Hc Ha]. split; simpl.
  - set_solver.
  - done.
  - intros u v [Hu1 Hu2] He. simpl in *.
    assert (finished st v) as [Hv1 Hv2].
    { destruct (decide (u = n)) as [->|Hne]; [by apply Hsucc|].
      apply (Hc u v); [split; set_solver | done]. }
    split; simpl; set_solver.
  - intros u [Hu1 Hu2] Hcyc. simpl in *.
    destruct (decide (u = n)) as [->|Hne].
    + apply tc_first_edge in Hcyc as [v [He Hr]].
      pose proof (finished_closed_rtc st v n Hinv (Hsucc v He) Hr) as [_ Hn']. done.
    + apply (Ha u); [split; set_solver | done].
Qed.


Lemma dfs_neighbors_spec V rec n nbs st :
  rec_ok s V rec → V ⊆ visited st →
  dfs_inv s st → n ∈ rec_stack st →
  (∀ g, g ∈ rec_stack st → rtc (edge s) g n) →
  (∀ nb, nb ∈ nbs → edge s n nb) →
  ∃ b st', dfs_neighbors rec nbs st = Some (b, st') ∧
    if b then cyclic s
    else dfs_inv s st' ∧ visited st ⊆ visited st' ∧
         rec_stack st' = rec_stack st ∧ ∀ nb, nb ∈ nbs → finished st' nb.
Proof.
  intros Hrec. revert st.
  induction nbs as [|nb rest IH]; intros st HV Hinv Hn Hreach Hedges; simpl.
  - exists false, st. split; [done|]. do 3 (split; [done|]).
    intros nb Hnb. by apply elem_of_nil in Hnb.
  - assert (edge s n nb) as Henb by (apply Hedges; left).
    assert (∀ x, x ∈ rest → edge s n x) as Hrest by (intros; apply Hedges; by right).
    destruct (decide (nb ∉ visited st)) as [Hnv|Hv].
    + destruct (Hrec nb st HV) as (b & st' & Hcall & Hpost).
      { split; [done|]. split; [by eapply edge_mentioned|]. split; [done|].
        intros g Hg. eapply rtc_r; [by apply Hreach | done]. }
      rewrite Hcall. destruct b; simpl in Hpost.
      * exists true, st'. done.
      * destruct Hpost as (Hinv' & Hsub & Hnbv & Hstk).
        destruct (IH st') as (b & st'' & Hloop & Hpost'); try done.
        { set_solver. } { by rewrite Hstk. } { by rewrite Hstk. }
        exists b, st''. split; [done|]. destruct b; [done|].
        destruct Hpost' as (Hinv'' & Hsub' & Hstk' & Hfin).
        split; [done|]. split; [set_solver|]. split; [congruence|].
        intros x Hx. apply elem_of_cons in Hx as [->|Hx]; [|by apply Hfin].
        split; [set_solver|]. rewrite Hstk', Hstk.
        pose proof (inv_stack _ _ Hinv). set_solver.
    + apply dec_stable in Hv.
      destruct (decide (nb ∈ rec_stack st)) as [Hs|Hns].
      * exists true, st. split; [done|]. exists nb.
        eapply tc_rtc_l; [by apply Hreach | by apply tc_once].
      * destruct (IH st) as (b & st'' & Hloop & Hpost'); try done.
        exists b, st''. split; [done|]. destruct b; [done|].
        destruct Hpost' as (Hinv'' & Hsub' & Hstk' & Hfin).
        do 3 (split; [done|]).
        intros x Hx. apply elem_of_cons in Hx as [->|Hx]; [|by apply Hfin].
        split; [set_solver|]. by rewrite Hstk'.
Qed.

Lemma dfs_spec depth n st :
  size (mentioned s ∖ visited st) < depth → dfs_pre s st n →
  ∃ b st', dfs s depth n st = Some (b, st') ∧ dfs_post s st n b st'.
Proof.
  revert n st. induction depth as [|depth IH]; intros n st Hsz Hpre; [lia|].
  destruct Hpre as (Hinv & Hm & Hnv & Hreach). simpl.
  set (st1 := mkDfs ({[n]} ∪ visited st) ({[n]} ∪ rec_stack st)).
  assert (size (mentioned s ∖ visited st1) < depth) as Hsz1.
  { assert (mentioned s ∖ visited st1 ⊂ mentioned s ∖ visited st) as Hlt
      by (subst st1; simpl; set_solver).
    apply subset_size in Hlt. lia. }
  destruct (dfs_neighbors_spec (visited st1) (dfs s depth) n (successors s n) st1)
    as (b & st2 & Hloop & Hpost).
  - intros nb st0 HV Hpre0. apply IH; [|done].
    assert (mentioned s ∖ visited st0 ⊆ mentioned s ∖ visited st1) as Hle
      by set_solver.
    apply subseteq_size in Hle. lia.
  - done.
  - by apply dfs_inv_enter.
  - subst st1; simpl; set_solver.
  - intros g Hg. subst st1; simpl in Hg.
    apply elem_of_union in Hg as [->%elem_of_singleton|Hg]; [apply rtc_refl | by apply Hreach].
  - done.
  - rewrite Hloop. destruct b.
    + by exists true, st2.
    + destruct Hpost as (Hinv2 & Hsub & Hstk & Hfin).
      eexists false, _. split; [done|]. simpl.
      split; [|split; [|split]].
      * apply dfs_inv_leave; [done| |done].
        rewrite Hstk. subst st1; simpl; set_solver.
      * subst st1; simpl in *; set_solver.
      * subst st1; simpl in *; set_solver.
      * rewrite Hstk. subst st1; simpl.
        pose proof (inv_stack _ _ Hinv). set_solver.
Qed.

Lemma has_cycle_from_spec depth ncs st :
  size (mentioned s) < depth → (∀ nc, nc ∈ ncs → nc ∈ nodes s) →
  dfs_inv s st → rec_stack st = ∅ →
  ∃ b, has_cycle_from s depth ncs st = Some b ∧
    if b then cyclic s
    else ∃ st', dfs_inv s st' ∧ rec_stack st' = ∅ ∧ visited st ⊆ visited st' ∧
         ∀ nc, nc ∈ ncs → node nc ∈ visited st'.
Proof.
  intros Hd. revert st. induction ncs as [|nc rest IH]; intros st Hin Hinv Hstk; simpl.
  - exists false. split; [done|]. exists st. do 3 (split; [done|]).
    intros nc Hnc. by apply elem_of_nil in Hnc.
  - assert (∀ x, x ∈ rest → x ∈ nodes s) as Hrest by (intros; apply Hin; by right).
    destruct (decide (node nc ∉ visited st)) as [Hnv|Hv].
    + destruct (dfs_spec depth (node nc) st) as (b & st' & Hcall & Hpost).
      { assert (mentioned s ∖ visited st ⊆ mentioned s) as Hle by set_solver.
        apply subseteq_size in Hle. lia. }
      { split; [done|]. split; [apply mentioned_node, Hin; by left|].
        split; [done|]. intros g. rewrite Hstk. set_solver. }
      rewrite Hcall. destruct b; simpl in Hpost.
      * by exists true.
      * destruct Hpost as (Hinv' & Hsub & Hnv' & Hstk').
        destruct (IH st') as (b & Hloop & Hpost'); [done|done|congruence|].
        exists b. split; [done|]. destruct b; [done|].
        destruct Hpost' as (st'' & Hinv'' & Hstk'' & Hsub'' & Hall).
        exists st''. split; [done|]. split; [done|]. split; [set_solver|].
        intros x Hx. apply elem_of_cons in Hx as [->|Hx]; [set_solver|by apply Hall].
    + apply dec_stable in Hv.
      destruct (IH st) as (b & Hloop & Hpost'); [done|done|done|].
      exists b. split; [done|]. destruct b; [done|].
      destruct Hpost' as (st'' & Hinv'' & Hstk'' & Hsub'' & Hall).
      exists st''. do 3 (split; [done|]).
      intros x Hx. apply elem_of_cons in Hx as [->|Hx]; [set_solver|by apply Hall].
Qed.

Lemma dfs_inv_init : dfs_inv s (mkDfs ∅ ∅).
Proof.
  split; simpl; [set_solver|set_solver| |]; intros u; unfold finished; simpl; set_solver.
Qed.

Lemma has_cycle_spec :
  ∃ b, has_cycle s = Some b ∧ (b = true ↔ cyclic s).
Proof.
  unfold has_cycle, has_cycle_depth, depth_bound.
  destruct (has_cycle_from_spec (S (size (mentioned s))) (nodes s) (mkDfs ∅ ∅))
    as (b & Hrun & Hpost); [lia|done|apply dfs_inv_init|done|].
  exists b. split; [done|]. destruct b; [done|].
  destruct Hpost as (st' & Hinv & Hstk & _ & Hall).
  split; [done|]. intros [n Hcyc]. exfalso.
  apply (inv_acyclic _ _ Hinv n); [|done].
  apply tc_first_edge in Hcyc as (v & He & _).
  apply edge_configured in He as (nc & Hin & <-).
  split; [by apply Hall | rewrite Hstk; set_solver].
Qed.


Lemma successors_length n : length (successors s n) ≤ total_connections s.
Proof.
  unfold successors, total_connections.
  destruct (find_config s n) as [nc|] eqn:E; simpl; [|lia].
  apply find_config_Some in E as [Hin _].
  by apply (sum_list_with_in nc (λ nc, length (connections nc))).
Qed.

Lemma reachable_universe n : reachable s n → n ∈ bfs_universe s.
Proof.
  unfold reachable, bfs_universe. intros H.
  apply rtc_inv_r in H as [->|(m & _ & He)]; [set_solver|].
  apply edge_mentioned in He as [_ ?]. set_solver.
Qed.

Lemma bfs_done R x :
  bfs_inv s R [] → x ∈ R ↔ reachable s x.
Proof.
  intros (Hr & Hs & Hc). split; [intros; apply Hr; by left|].
  unfold reachable. revert x. apply rtc_ind_r.
  - destruct Hs as [?|Hs]; [done|by apply elem_of_nil in Hs].
  - intros a b _ Hab IHx.
    destruct (Hc a b IHx Hab) as [?|Hb]; [done|by apply elem_of_nil in Hb].
Qed.

Lemma bfs_spec steps R q :
  bfs_inv s R q →
  length q + size (bfs_universe s ∖ R) * S (total_connections s) ≤ steps →
  ∃ R', bfs s steps R q = Some R' ∧ ∀ x, x ∈ R' ↔ reachable s x.
Proof.
  revert R q. induction steps as [|steps IH]; intros R q Hinv Hsz.
  all: destruct q as [|n q]; simpl.
  1,3: exists R; split; [done|]; intros x; by apply bfs_done.
  - simpl in Hsz. lia.
  - destruct Hinv as (Hr & Hs & Hc).
    destruct (decide (n ∉ R)) as [Hn|Hn].
    + apply IH.
      * split; [|split].
        -- intros x [Hx|Hx].
           ++ apply elem_of_union in Hx as [->%elem_of_singleton|Hx];
                apply Hr; [right; by left | by left].
           ++ apply elem_of_app in Hx as [Hx|Hx]; [apply Hr; right; by right|].
              eapply rtc_r; [apply Hr; right; by left | done].
        -- destruct Hs as [?|Hs]; [left; set_solver|].
           apply elem_of_cons in Hs as [->|Hs]; [left; set_solver|].
           right. apply elem_of_app. by left.
        -- intros u v Hu He.
           apply elem_of_union in Hu as [->%elem_of_singleton|Hu].
           ++ right. apply elem_of_app. by right.
           ++ destruct (Hc u v Hu He) as [?|Hv]; [left; set_solver|].
              apply elem_of_cons in Hv as [->|Hv]; [left; set_solver|].
              right. apply elem_of_app. by left.
      * assert (n ∈ bfs_universe s) as HnU
          by (apply reachable_universe, Hr; right; by left).
        assert (bfs_universe s ∖ ({[n]} ∪ R) ⊂ bfs_universe s ∖ R) as Hlt.
        { split; [set_solver|]. intros Hsub. specialize (Hsub n). set_solver. }
        apply subset_size in Hlt.
        pose proof (successors_length n). rewrite length_app.
        simpl in Hsz. nia.
    + apply dec_stable in Hn. apply IH.
      * split; [|split].
        -- intros x [Hx|Hx]; apply Hr; [by left | right; by right].
        -- destruct Hs as [?|Hs]; [by left|].
           apply elem_of_cons in Hs as [->|Hs]; [by left | by right].
        -- intros u v Hu He. destruct (Hc u v Hu He) as [?|Hv]; [by left|].
           apply elem_of_cons in Hv as [->|Hv]; [by left | by right].
      * simpl in Hsz. lia.
Qed.

Lemma get_reachable_nodes_spec :
  ∃ R, get_reachable_nodes s = Some R ∧ ∀ x, x ∈ R ↔ reachable s x.
Proof.
  unfold get_reachable_nodes. apply bfs_spec.
  - split; [|split].
    + intros x [Hx|Hx]; [set_solver|].
      apply list_elem_of_singleton in Hx as ->. apply rtc_refl.
    + right. by left.
    + set_solver.
  - unfold steps_bound. simpl.
    assert (size (bfs_universe s ∖ ∅) ≤ S (size (mentioned s))) as Hle.
    { unfold bfs_universe. rewrite difference_empty_L, size_union_alt, size_singleton.
      assert (mentioned s ∖ {[start s]} ⊆ mentioned s) as H by set_solver.
      apply subseteq_size in H. lia. }
    nia.
Qed.

Lemma all_nodes_configured n : n ∈ all_nodes s ↔ configured s n.
Proof.
  unfold all_nodes, configured. rewrite elem_of_list_to_set, list_elem_of_fmap.
  naive_solver.
Qed.

Lemma validate_connections_from_spec ncs :
  (∃ e, validate_connections_from ncs = inl e) ↔
  ∃ nc, nc ∈ ncs ∧ 1 < length (connections nc) ∧ is_router nc = false.
Proof.
  induction ncs as [|nc rest IH]; simpl.
  - split; [by intros [? ?] | intros (? & H & _); by apply elem_of_nil in H].
  - destruct ((1 <? length (connections nc))%nat && negb (is_router nc)) eqn:E.
    + split; [|by eauto]. intros _. exists nc.
      apply andb_true_iff in E as [E1 E2].
      apply Nat.ltb_lt in E1. apply negb_true_iff in E2.
      split; [by left | done].
    + rewrite IH. split.
      * intros (x & Hx & H). exists x. split; [by right | done].
      * intros (x & Hx & H1 & H2). apply elem_of_cons in Hx as [->|Hx]; [|by eauto].
        apply andb_false_iff in E as [E|E].
        -- apply Nat.ltb_ge in E. lia.
        -- rewrite H2 in E. done.
Qed.

Lemma validate_connections_spec :
  (∃ e, validate_connections s = inl e) ↔ bad_arity s.
Proof. apply validate_connections_from_spec. Qed.

(** What [_validate_dag] returns, case by case. *)
Lemma validate_dag_spec :
  (cyclic s ∧ validate_dag s = Some (inl CycleError)) ∨
  (¬ cyclic s ∧ some_unreachable s ∧
     ∃ R, get_reachable_nodes s = Some R ∧
          validate_dag s = Some (inl (UnreachableNodes (all_nodes s ∖ R)))) ∨
  (¬ cyclic s ∧ ¬ some_unreachable s ∧ validate_dag s = Some (inr ())).
Proof.
  unfold validate_dag.
  destruct has_cycle_spec as (b & -> & Hb).
  destruct get_reachable_nodes_spec as (R & HR & HRspec). rewrite HR.
  destruct b.
  - left. split; [by apply Hb | done].
  - right. assert (¬ cyclic s) as Hnc by (intros H; by apply Hb in H).
    destruct (decide (all_nodes s ∖ R ≠ ∅)) as [Hne|He].
    + left. split; [done|]. split; [|by eauto].
      apply set_choose_L in Hne as [n Hn]. exists n.
      apply elem_of_difference in Hn as [Hn1 Hn2].
      split; [by apply all_nodes_configured | by rewrite <- HRspec].
    + right. split; [done|]. split; [|done].
      apply dec_stable in He. intros (n & Hn1 & Hn2).
      assert (n ∈ all_nodes s ∖ R) as Hn.
      { apply elem_of_difference. split; [by apply all_nodes_configured | by rewrite HRspec]. }
      rewrite He in Hn. set_solver.
Qed.

Lemma unreachable_set R n :
  get_reachable_nodes s = Some R →
  n ∈ all_nodes s ∖ R ↔ configured s n ∧ ¬ reachable s n.
Proof.
  intros HR. destruct get_reachable_nodes_spec as (R' & HR' & Hspec).
  assert (R' = R) as -> by congruence.
  rewrite elem_of_difference, all_nodes_configured, Hspec. done.
Qed.

Lemma validate_cases :
  (raises s ∧ (cyclic s ∨ some_unreachable s ∨ bad_arity s)) ∨
  (succeeds s ∧ ¬ (cyclic s ∨ some_unreachable s ∨ bad_arity s)).
Proof.
  unfold raises, succeeds, validate.
  destruct validate_dag_spec as [[Hc ->]|[(Hnc & Hu & R & _ & ->)|(Hnc & Hnu & ->)]].
  - left. split; [by eauto | by left].
  - left. split; [by eauto | right; by left].
  - destruct (validate_connections s) as [e|[]] eqn:E.
    + left. split; [by eauto|]. right; right.
      apply validate_connections_spec. by eauto.
    + right. split; [done|]. intros [?|[?|Hb]]; [done|done|].
      apply validate_connections_spec in Hb as [e He]. congruence.
Qed.

End Graph.

(** Scenario 2: the two-node cycle is refused, and no workflow is built. *)
Example two_cycle_rejected :
  validate two_cycle = Some (inl CycleError) ∧
  Engine.init two_cycle_workflow = Some (inl CycleError).
Proof. split; reflexivity. Qed.

(** Scenario 1 passes the three checks. *)
Example scenario_schema_accepted : succeeds scenario_schema.
Proof. reflexivity. Qed.

(** With one configuration per class, the edges the validator follows are
    the edges the schema declares. *)
Lemma edge_declared (s : WorkflowSchema) a b :
  NoDup (node <$> nodes s) → edge s a b ↔ declared_edge s a b.
Proof.
  intros Hnd. unfold edge, successors, declared_edge. split.
  - destruct (find_config s a) as [nc|] eqn:E.
    + intros Hb. apply find_config_Some in E as [? ?]. by exists nc.
    + intros Hb. by apply elem_of_nil in Hb.
  - intros (nc & Hin & Ha & Hb).
    destruct (find_config s a) as [nc'|] eqn:E.
    + apply find_config_Some in E as [Hin' Ha'].
      assert (nc' = nc) as ->; [|done].
      apply list_elem_of_lookup in Hin as [i Hi], Hin' as [j Hj].
      assert (i = j) as ->.
      { eapply NoDup_lookup; [done| |]; rewrite list_lookup_fmap.
        - by rewrite Hi.
        - rewrite Hj. simpl. congruence. }
      congruence.
    + apply find_config_None in E. destruct E. by exists nc.
Qed.

(** C1. [validate] raises exactly when the successor graph of the schema has
    a cycle, or some configured node cannot be reached from the start node,
    or some configuration lists more than one successor without being marked
    a router; and it returns normally exactly when none of the three holds.
    The traversals always come to an end, so one of the two happens. The
    edges of the graph are those the validator and the runner follow; where
    every class is configured once they are the edges the schema declares. *)
Theorem validate_raises_iff (s : WorkflowSchema) :
  ((∃ e, validate s = Some (inl e)) ↔
     cyclic s ∨ some_unreachable s ∨ bad_arity s) ∧
  (validate s = Some (inr ()) ↔
     ¬ (cyclic s ∨ some_unreachable s ∨ bad_arity s)) ∧
  (NoDup (node <$> nodes s) → ∀ a b, edge s a b ↔ declared_edge s a b).
Proof.
  split; [|split; [|intros Hnd a b; by apply edge_declared]].
  all: destruct (validate_cases s) as [[[e He] HP]|[Hs HP]];
    unfold succeeds in *.
  - split; [done | by eauto].
  - split; [|done]. intros [e He]. congruence.
  - rewrite He. split; [done | done].
  - done.
Qed.

Lemma has_cycle_false_acyclic s : has_cycle s = Some false → ¬ cyclic s.
Proof.
  intros H Hc. destruct (has_cycle_spec s) as (b & Hb & Hiff).
  apply Hiff in Hc. congruence.
Qed.

Lemma not_reachable_by_bfs s R n :
  get_reachable_nodes s = Some R → n ∉ R → ¬ reachable s n.
Proof.
  intros HR Hn Hr. destruct (get_reachable_nodes_spec s) as (R' & HR' & Hspec).
  assert (R' = R) as -> by congruence. by apply Hspec in Hr.
Qed.

Lemma island_unreachable s n R nc :
  nc ∈ nodes s → node nc = n → get_reachable_nodes s = Some R → n ∉ R →
  some_unreachable s.
Proof.
  intros Hin Hn HR HnR. exists n. split; [by exists nc|].
  by eapply not_reachable_by_bfs.
Qed.

(** C7, as amended. When the cycle check finds no cycle and some configured
    node cannot be reached from the start node, [validate] fails with the
    error that names exactly the configured nodes that are not in the set
    the breadth-first traversal computes, which are exactly the configured
    nodes out of reach of the start node. *)
Theorem unreachable_named_when_acyclic s :
  ¬ cyclic s → some_unreachable s →
  names_unreachable s ∧
  ∃ R, get_reachable_nodes s = Some R ∧
       validate s = Some (inl (UnreachableNodes (all_nodes s ∖ R))).
Proof.
  intros Hnc Hu. unfold names_unreachable, validate.
  destruct (validate_dag_spec s) as [[Hc _]|[(_ & _ & R & HR & ->)|(_ & Hnu & _)]];
    [done| |done].
  split; [|by eauto]. eexists. split; [done|]. intros n. by apply unreachable_set.
Qed.

(** The amended C7 on a schema whose nodes B and C are out of reach. *)
Lemma unreachable_named_when_acyclic_witness :
  names_unreachable island ∧
  ∃ R, get_reachable_nodes island = Some R ∧
       validate island = Some (inl (UnreachableNodes (all_nodes island ∖ R))).
Proof.
  apply (unreachable_named_when_acyclic island).
  - apply has_cycle_false_acyclic. vm_compute. reflexivity.
  - apply (island_unreachable island "B" {["A"]} (config "B" ["C"] false)).
    + right. left.
    + reflexivity.
    + vm_compute. reflexivity.
    + vm_compute. intros H. discriminate H.
Defined.

(** C7 as first stated fails: B and C are out of reach and point at each
    other, and [validate] reports the cycle, not the unreachable nodes. *)
Lemma unreachable_cycle_reported_as_cycle :
  some_unreachable island_cycle ∧
  validate island_cycle = Some (inl CycleError) ∧
  ¬ names_unreachable island_cycle.
Proof.
  assert (validate island_cycle = Some (inl CycleError)) as Hv by (vm_compute; reflexivity).
  split; [|split; [done|]].
  - apply (island_unreachable island_cycle "B" {["A"]} (config "B" ["C"] false)).
    + right. left.
    + reflexivity.
    + vm_compute. reflexivity.
    + vm_compute. intros H. discriminate H.
  - intros (U & HU & _). rewrite Hv in HU. discriminate HU.
Qed.


End ValidatorFacts.

Module TaskFacts.

(** C9. [update_node ctx n F] leaves a record under [n] whether or not there
    was one; in it a field of [F] has the value [F] gives it and any other
    field keeps the value it had; the records of all other nodes, the event,
    the metadata and the stop flag are unchanged. *)
Theorem update_node_merges (ctx : TaskContext) (n : string) (F : gmap string value) :
  (∃ merged, Task.nodes (Task.update_node ctx n F) !! n = Some merged ∧
     ∀ f, merged !! f =
          match F !! f with
          | Some v => Some v
          | None => default ∅ (Task.nodes ctx !! n) !! f
          end) ∧
  (∀ m, m ≠ n → Task.nodes (Task.update_node ctx n F) !! m = Task.nodes ctx !! m) ∧
  Task.event (Task.update_node ctx n F) = Task.event ctx ∧
  Task.metadata (Task.update_node ctx n F) = Task.metadata ctx ∧
  Task.should_stop (Task.update_node ctx n F) = Task.should_stop ctx.
Proof.
  split; [|split; [|done]].
  - eexists. simpl. split; [apply lookup_insert_eq|].
    intros f. destruct (F !! f) as [v|] eqn:E.
    + by apply lookup_union_Some_l.
    + by apply lookup_union_r.
  - intros m Hm. simpl. by apply lookup_insert_ne.
Qed.

End TaskFacts.

Module EngineFacts.
Import Engine Examples.

Section Runner.
Context {world : Type}.
Implicit Types (wf : Workflow world) (w : world) (ctx : TaskContext).

Lemma first_match_Some (rs : list (rule world)) w ctx n :
  first_match rs w ctx = Some n →
  ∃ i rl, rs !! i = Some rl ∧ rl w ctx = Some n ∧
    ∀ j rl', j < i → rs !! j = Some rl' → rl' w ctx = None.
Proof.
  induction rs as [|rl rest IH]; simpl; [done|].
  destruct (rl w ctx) as [m|] eqn:E.
  - intros [= ->]. exists 0, rl. split; [done|]. split; [done|]. lia.
  - intros H. destruct (IH H) as (i & rl' & Hi & Hrl & Hlt).
    exists (S i), rl'. split; [done|]. split; [done|].
    intros [|j] rl'' Hj Hl; simpl in Hl; [congruence|].
    apply (Hlt j); [lia|done].
Qed.

Lemma first_match_None (rs : list (rule world)) w ctx :
  first_match rs w ctx = None → ∀ rl, rl ∈ rs → rl w ctx = None.
Proof.
  induction rs as [|rl rest IH]; simpl; intros H rl' Hin.
  - by apply elem_of_nil in Hin.
  - destruct (rl w ctx) eqn:E; [done|].
    apply elem_of_cons in Hin as [->|Hin]; [done | by apply IH].
Qed.


Lemma add_connections_keyed cs m : keyed m → keyed (add_connections cs m).
Proof.
  unfold add_connections. revert m. induction cs as [|c cs IH]; intros m Hm; simpl; [done|].
  apply IH. destruct (m !! c) eqn:E; [done|].
  intros n cfg. rewrite lookup_insert. case_decide; [|by apply Hm].
  intros [= <-]. done.
Qed.

Lemma initialize_nodes_keyed ncs m : keyed m → keyed (initialize_nodes_from ncs m).
Proof.
  unfold initialize_nodes_from. revert m.
  induction ncs as [|nc ncs IH]; intros m Hm; simpl; [done|].
  apply IH, add_connections_keyed.
  intros n cfg. rewrite lookup_insert. case_decide; [|by apply Hm].
  intros [= <-]. done.
Qed.

Lemma self_nodes_key wf n cfg : self_nodes wf !! n = Some cfg → node cfg = n.
Proof. apply initialize_nodes_keyed. intros ? ?. by rewrite lookup_empty. Qed.

Lemma add_connections_mono cs m n : is_Some (m !! n) → is_Some (add_connections cs m !! n).
Proof.
  unfold add_connections. revert m. induction cs as [|c cs IH]; intros m Hm; simpl; [done|].
  apply IH. destruct (m !! c) eqn:E; [done|].
  rewrite lookup_insert. case_decide; [by eauto | done].
Qed.

Lemma initialize_nodes_mono ncs m n :
  is_Some (m !! n) → is_Some (initialize_nodes_from ncs m !! n).
Proof.
  unfold initialize_nodes_from. revert m.
  induction ncs as [|nc ncs IH]; intros m Hm; simpl; [done|].
  apply IH, add_connections_mono.
  rewrite lookup_insert. case_decide; [by eauto | done].
Qed.

Lemma initialize_nodes_configured ncs m nc :
  nc ∈ ncs → is_Some (initialize_nodes_from ncs m !! node nc).
Proof.
  revert m. induction ncs as [|nc' ncs IH]; intros m Hin.
  - by apply elem_of_nil in Hin.
  - apply elem_of_cons in Hin as [->|Hin]; [|by apply IH].
    simpl. apply (initialize_nodes_mono ncs), add_connections_mono.
    rewrite lookup_insert_eq. by eauto.
Qed.

Lemma self_nodes_configured wf n nc :
  find_config (workflow_schema wf) n = Some nc →
  ∃ cfg, self_nodes wf !! n = Some cfg ∧ node cfg = n.
Proof.
  intros H. apply ValidatorFacts.find_config_Some in H as [Hin <-].
  destruct (initialize_nodes_configured (nodes (workflow_schema wf)) ∅ nc Hin) as [cfg Hcfg].
  exists cfg. split; [done|]. by eapply self_nodes_key.
Qed.


(** *** One pass of the loop *)

Lemma get_next_calls wf cur w ctx :
  calls (get_next_node_class wf cur w ctx).1 = [] ∧
  visited_sequence (get_next_node_class wf cur w ctx).1 = [].
Proof.
  unfold get_next_node_class.
  destruct (find_config _ cur) as [nc|]; [|done].
  destruct (connections nc); [done|].
  destruct (is_router nc); [|done].
  destruct (self_nodes wf !! cur) as [cfg|]; [|done].
  destruct (route_of _); done.
Qed.


Lemma get_next_flagged wf cur w ctx nc :
  find_config (workflow_schema wf) cur = Some nc →
  is_router nc = true → connections nc ≠ [] →
  get_next_node_class wf cur w ctx =
    match route_of (class_of wf cur) with
    | Some rt => ([Route cur ctx (inr (rt w ctx))], inr (rt w ctx))
    | None => ([Route cur ctx (inl (attribute_error "route"))],
               inl (attribute_error "route"))
    end.
Proof.
  intros Hf Hr Hc. unfold get_next_node_class. rewrite Hf.
  destruct (connections nc) as [|first rest]; [done|]. rewrite Hr.
  destruct (self_nodes_configured wf cur nc Hf) as (cfg & -> & ->). done.
Qed.

(** The pass for a class that is not a [BaseRouter]. *)
Lemma iteration_plain wf cur w ctx cfg process rm :
  Task.should_stop ctx = false → self_nodes wf !! cur = Some cfg →
  class_of wf cur = PlainClass process rm →
  iteration wf cur w ctx =
    match process w ctx with
    | (Raises e ctx', w1) =>
      ([LogStarting cur; Process cur ctx (Raises e ctx');
        LogError cur (exn_msg e); LogFinished cur], Abort e ctx', w1)
    | (Returns ctx', w1) =>
      (LogStarting cur :: Process cur ctx (Returns ctx') :: LogFinished cur ::
         (get_next_node_class wf cur w1 ctx').1,
       match (get_next_node_class wf cur w1 ctx').2 with
       | inl e => Abort e ctx'
       | inr next => Next next ctx'
       end, w1)
    end.
Proof.
  intros Hs Hn Hc. unfold iteration. rewrite Hs, Hn.
  rewrite (self_nodes_key wf cur cfg Hn), Hc.
  destruct (process w ctx) as [[c'|e c'] w1]; simpl; [|done].
  by destruct (get_next_node_class wf cur w1 c').
Qed.

(** The pass for a subclass of [BaseRouter]. *)
Lemma iteration_router wf cur w ctx cfg r :
  Task.should_stop ctx = false → self_nodes wf !! cur = Some cfg →
  class_of wf cur = RouterClass r →
  iteration wf cur w ctx =
    (LogStarting cur :: LogFinished cur :: (get_next_node_class wf cur w ctx).1,
     match (get_next_node_class wf cur w ctx).2 with
     | inl e => Abort e ctx
     | inr next => Next next ctx
     end, w).
Proof.
  intros Hs Hn Hc. unfold iteration. rewrite Hs, Hn.
  rewrite (self_nodes_key wf cur cfg Hn), Hc. simpl.
  by destruct (get_next_node_class wf cur w ctx).
Qed.

Lemma iteration_stopped wf cur w ctx :
  Task.should_stop ctx = true →
  iteration wf cur w ctx = ([LogStopping], Break ctx, w).
Proof. intros Hs. unfold iteration. by rewrite Hs. Qed.

Lemma run_loop_stopped wf fuel cur w ctx :
  Task.should_stop ctx = true →
  run_loop wf (S fuel) (Some cur) w ctx = Some ([LogStopping], Exited Stopped ctx, w).
Proof. intros Hs. simpl. by rewrite iteration_stopped. Qed.

Lemma run_loop_None wf fuel w ctx :
  run_loop wf fuel None w ctx = Some ([], Exited Completed ctx, w).
Proof. by destruct fuel. Qed.





(** *** Whole runs *)

Lemma calls_app evs1 evs2 : calls (evs1 ++ evs2) = calls evs1 ++ calls evs2.
Proof. apply omap_app. Qed.

Lemma last_context_app ctx evs1 evs2 :
  last_context ctx (evs1 ++ evs2) = last_context (last_context ctx evs1) evs2.
Proof. apply foldl_app. Qed.

Lemma last_context_no_calls ctx evs : calls evs = [] → last_context ctx evs = ctx.
Proof.
  revert ctx. induction evs as [|ev evs IH]; intros ctx H; [done|].
  destruct ev; simpl in *; try by apply IH. done.
Qed.

Lemma iteration_shape wf cur w ctx evs r w' :
  iteration wf cur w ctx = (evs, r, w') → pass_shape cur ctx evs r.
Proof.
  intros Hit. destruct (Task.should_stop ctx) eqn:Hs.
  { rewrite iteration_stopped in Hit by done. injection Hit as <- <- <-. by constructor. }
  destruct (self_nodes wf !! cur) as [cfg|] eqn:Hn.
  2:{ unfold iteration in Hit. rewrite Hs, Hn in Hit. injection Hit as <- <- <-. constructor. }
  destruct (class_of wf cur) as [rt|process rm] eqn:Hcls.
  - rewrite (iteration_router wf cur w ctx cfg rt Hs Hn Hcls) in Hit.
    injection Hit as <- <- <-. constructor; [done|apply get_next_calls|].
    destruct (get_next_node_class wf cur w ctx).2; by eauto.
  - rewrite (iteration_plain wf cur w ctx cfg process rm Hs Hn Hcls) in Hit.
    destruct (process w ctx) as [[c1|e c1] w1]; injection Hit as <- <- <-.
    + constructor; [done|apply get_next_calls|].
      destruct (get_next_node_class wf cur w1 c1).2; by eauto.
    + by constructor.
Qed.

Lemma run_loop_Some wf fuel cur w ctx evs out w' :
  run_loop wf (S fuel) (Some cur) w ctx = Some (evs, out, w') →
  ∃ evs1 r w1, iteration wf cur w ctx = (evs1, r, w1) ∧
    match r with
    | Break c => evs = evs1 ∧ out = Exited Stopped c ∧ w' = w1
    | Abort e c => evs = evs1 ∧ out = Aborted e c ∧ w' = w1
    | Next next c =>
      ∃ evs2, run_loop wf fuel next w1 c = Some (evs2, out, w') ∧ evs = evs1 ++ evs2
    end.
Proof.
  simpl. destruct (iteration wf cur w ctx) as [[evs1 r] w1].
  intros H. exists evs1, r, w1. split; [done|].
  destruct r as [next c|c|e c].
  - destruct (run_loop wf fuel next w1 c) as [[[evs2 r2] w2]|]; [|done].
    injection H as <- <- <-. by eauto.
  - by injection H as <- <- <-.
  - by injection H as <- <- <-.
Qed.

Lemma run_loop_after_stop wf fuel next w ctx evs out w' :
  Task.should_stop ctx = true →
  run_loop wf fuel next w ctx = Some (evs, out, w') →
  calls evs = [] ∧ loop_context out = ctx.
Proof.
  intros Hs. destruct next as [m|].
  - destruct fuel; [done|]. rewrite run_loop_stopped by done. by intros [= <- <- <-].
  - rewrite run_loop_None. by intros [= <- <- <-].
Qed.

(** Once a [process] has returned a context with the flag set, the loop
    makes no further call and ends with that context. *)
Lemma run_loop_stop wf fuel cur w ctx evs out w' i n c c' :
  run_loop wf fuel cur w ctx = Some (evs, out, w') →
  calls evs !! i = Some (n, c, Returns c') → Task.should_stop c' = true →
  length (calls evs) = S i ∧ loop_context out = c'.
Proof.
  revert cur w ctx evs out w' i.
  induction fuel as [|fuel IH]; intros cur w ctx evs out w' i Hrun Hi Hstop.
  all: destruct cur as [cur|]; [|rewrite run_loop_None in Hrun; by injection Hrun as <- <- <-].
  { done. }
  apply run_loop_Some in Hrun as (evs1 & r & w1 & Hit & Hr).
  apply iteration_shape in Hit.
  destruct Hit as [Hs| |routing r Hs Hc Hr'|e c1 Hs|routing c1 r Hs Hc Hr'].
  - destruct Hr as (-> & _). done.
  - destruct Hr as (-> & _). done.
  - destruct Hr' as [[e ->]|[next ->]].
    + destruct Hr as (-> & _). simpl in Hi. by rewrite Hc in Hi.
    + destruct Hr as (evs2 & Hrun & ->).
      rewrite calls_app in Hi |- *. simpl in Hi |- *. rewrite Hc in Hi |- *.
      by eapply IH.
  - destruct Hr as (-> & _). destruct i; simpl in Hi; [congruence | done].
  - destruct Hr' as [[e ->]|[next ->]].
    + destruct Hr as (-> & -> & _). simpl in Hi |- *. rewrite Hc in Hi |- *.
      destruct i; simpl in Hi; [|done]. by injection Hi as _ _ ->.
    + destruct Hr as (evs2 & Hrun & ->).
      rewrite calls_app in Hi |- *. simpl in Hi |- *. rewrite Hc in Hi |- *.
      simpl in Hi |- *.
      destruct i; simpl in Hi.
      * injection Hi as _ _ ->.
        destruct (run_loop_after_stop _ _ _ _ _ _ _ _ Hstop Hrun) as [-> ?]. done.
      * destruct (IH _ _ _ _ _ _ _ Hrun Hi Hstop) as [-> ?]. done.
Qed.


(** C3. In a run that ends, once a call of [process] has returned a context
    with the stop flag set, that call is the last one, and the context the
    run ends with is the one this call returned (less the entry ["nodes"]
    when [run] returns it). And the run does end: from the pass in which a
    node sets the flag, which runs that node's [process] to its end, the
    loop is left within two passes, with that context. *)
Theorem stop_ends_run wf :
  (∀ fuel w ev evs res w' i n c c',
     run wf fuel w ev = Some (evs, res, w') →
     calls evs !! i = Some (n, c, Returns c') → Task.should_stop c' = true →
     length (calls evs) = S i ∧
     match res with
     | Returned _ final => final = Task.pop_metadata c' "nodes"
     | Raised _ final => final = c'
     end) ∧
  (∀ fuel cur w ctx cfg process rm c' w1,
     Task.should_stop ctx = false → self_nodes wf !! cur = Some cfg →
     class_of wf cur = PlainClass process rm →
     process w ctx = (Returns c', w1) → Task.should_stop c' = true →
     ∃ evs out, run_loop wf (S (S fuel)) (Some cur) w ctx = Some (evs, out, w1) ∧
       calls evs = [(cur, ctx, Returns c')] ∧ loop_context out = c').
Proof.
  split.
  - intros fuel w ev evs res w' i n c c' Hrun Hi Hstop. unfold run in Hrun.
    destruct (event_schema _ ev) as [e|parsed]; [by injection Hrun as <- <- <-|].
    destruct (run_loop _ _ _ _ _) as [[[evs0 out] w0]|] eqn:Hloop; [|done].
    assert (evs0 = evs) as ->.
    { destruct out; [destruct (Task.metadata _ !! _)|]; by simplify_eq. }
    destruct (run_loop_stop _ _ _ _ _ _ _ _ _ _ _ _ Hloop Hi Hstop) as [Hlen Hctx].
    split; [done|]. destruct out as [t cl|e cl]; simpl in Hctx; subst cl.
    + destruct (Task.metadata c' !! "nodes"); by simplify_eq.
    + by simplify_eq.
  - intros fuel cur w ctx cfg process rm c' w1 Hs Hn Hcls Hp Hstop.
    change (run_loop wf (S (S fuel)) (Some cur) w ctx) with
      (let '(evs, r, w1) := iteration wf cur w ctx in
       match r with
       | Break ctx' => Some (evs, Exited Stopped ctx', w1)
       | Abort e ctx' => Some (evs, Aborted e ctx', w1)
       | Next next ctx' =>
         match run_loop wf (S fuel) next w1 ctx' with
         | None => None
         | Some (evs', r', w2) => Some (evs ++ evs', r', w2)
         end
       end).
    rewrite (iteration_plain wf cur w ctx cfg process rm Hs Hn Hcls), Hp.
    destruct (get_next_calls wf cur w1 c') as [Hc _].
    destruct (get_next_node_class wf cur w1 c') as [routing [e|[m|]]]; simpl in *.
    + eexists _, _. split; [done|]. simpl. by rewrite Hc.
    + rewrite iteration_stopped by done. eexists _, _. split; [done|].
      split; [|done]. simpl. by rewrite calls_app, Hc.
    + eexists _, _. split; [done|]. split; [|done].
      simpl. by rewrite calls_app, Hc.
Qed.

Lemma run_loop_raise wf fuel cur w ctx evs out w' i n c e c' :
  run_loop wf fuel cur w ctx = Some (evs, out, w') →
  calls evs !! i = Some (n, c, Raises e c') →
  length (calls evs) = S i ∧ out = Aborted e c' ∧
  ∃ pre, evs = pre ++ [LogStarting n; Process n c (Raises e c');
                       LogError n (exn_msg e); LogFinished n].
Proof.
  revert cur w ctx evs out w' i.
  induction fuel as [|fuel IH]; intros cur w ctx evs out w' i Hrun Hi.
  all: destruct cur as [cur|]; [|rewrite run_loop_None in Hrun; by injection Hrun as <- <- <-].
  { done. }
  apply run_loop_Some in Hrun as (evs1 & r & w1 & Hit & Hr).
  apply iteration_shape in Hit.
  destruct Hit as [Hs| |routing r Hs Hc Hr'|e1 c1 Hs|routing c1 r Hs Hc Hr'].
  - destruct Hr as (-> & _). done.
  - destruct Hr as (-> & _). done.
  - destruct Hr' as [[e1 ->]|[next ->]].
    + destruct Hr as (-> & _). simpl in Hi. by rewrite Hc in Hi.
    + destruct Hr as (evs2 & Hrun & ->).
      rewrite calls_app in Hi |- *. simpl in Hi |- *. rewrite Hc in Hi |- *.
      destruct (IH _ _ _ _ _ _ _ Hrun Hi) as (Hlen & Hout & pre & ->).
      split; [done|]. split; [done|].
      exists (LogStarting cur :: LogFinished cur :: routing ++ pre).
      simpl. by rewrite <- app_assoc.
  - destruct Hr as (-> & -> & _). destruct i; simpl in Hi; [|done].
    injection Hi as <- <- <- <-. split; [done|]. split; [done|]. by exists [].
  - destruct Hr' as [[e1 ->]|[next ->]].
    + destruct Hr as (-> & -> & _). simpl in Hi. rewrite Hc in Hi.
      destruct i; simpl in Hi; [congruence | done].
    + destruct Hr as (evs2 & Hrun & ->).
      rewrite calls_app in Hi |- *. simpl in Hi |- *. rewrite Hc in Hi |- *.
      simpl in Hi |- *. destruct i; simpl in Hi; [congruence|].
      destruct (IH _ _ _ _ _ _ _ Hrun Hi) as (Hlen & Hout & pre & ->).
      split; [by rewrite Hlen|]. split; [done|].
      exists (LogStarting cur :: Process cur ctx (Returns c1) ::
                LogFinished cur :: routing ++ pre).
      simpl. by rewrite <- app_assoc.
Qed.

(** C5. In a run that ends, a call of [process] that raises is the last
    call (nothing is tried again); the trace ends with the start record of
    that node, the call, the error record with the node name and the
    message, and the finish record; and the caller gets that exception with
    the context as the body left it. And the run does end there: the pass
    in which [process] raises leaves the loop at once. *)
Theorem node_error_aborts_run wf :
  (∀ fuel w ev evs res w' i n c e c',
     run wf fuel w ev = Some (evs, res, w') →
     calls evs !! i = Some (n, c, Raises e c') →
     length (calls evs) = S i ∧ res = Raised e c' ∧
     ∃ pre, evs = pre ++ [LogStarting n; Process n c (Raises e c');
                          LogError n (exn_msg e); LogFinished n]) ∧
  (∀ fuel cur w ctx cfg process rm e c' w1,
     Task.should_stop ctx = false → self_nodes wf !! cur = Some cfg →
     class_of wf cur = PlainClass process rm →
     process w ctx = (Raises e c', w1) →
     run_loop wf (S fuel) (Some cur) w ctx =
       Some ([LogStarting cur; Process cur ctx (Raises e c');
              LogError cur (exn_msg e); LogFinished cur], Aborted e c', w1)).
Proof.
  split.
  - intros fuel w ev evs res w' i n c e c' Hrun Hi. unfold run in Hrun.
    destruct (event_schema _ ev) as [e0|parsed]; [by injection Hrun as <- <- <-|].
    destruct (run_loop _ _ _ _ _) as [[[evs0 out] w0]|] eqn:Hloop; [|done].
    assert (evs0 = evs) as ->.
    { destruct out; [destruct (Task.metadata _ !! _)|]; by simplify_eq. }
    destruct (run_loop_raise _ _ _ _ _ _ _ _ _ _ _ _ _ Hloop Hi) as (Hlen & -> & Hpre).
    by simplify_eq.
  - intros fuel cur w ctx cfg process rm e c' w1 Hs Hn Hcls Hp. simpl.
    by rewrite (iteration_plain wf cur w ctx cfg process rm Hs Hn Hcls), Hp.
Qed.


Lemma run_loop_exit wf fuel cur w ctx evs t c w' :
  run_loop wf fuel cur w ctx = Some (evs, Exited t c, w') →
  c = last_context ctx evs.
Proof.
  revert cur w ctx evs. induction fuel as [|fuel IH]; intros cur w ctx evs Hrun.
  all: destruct cur as [cur|]; [|rewrite run_loop_None in Hrun; by simplify_eq].
  { done. }
  apply run_loop_Some in Hrun as (evs1 & r & w1 & Hit & Hr).
  apply iteration_shape in Hit.
  destruct Hit as [Hs| |routing r Hs Hc Hr'|e1 c1 Hs|routing c1 r Hs Hc Hr'].
  - destruct Hr as (-> & ? & _). by simplify_eq.
  - destruct Hr as (_ & ? & _). done.
  - destruct Hr' as [[e1 ->]|[next ->]]; [by destruct Hr as (_ & ? & _)|].
    destruct Hr as (evs2 & Hrun & ->). apply IH in Hrun as ->.
    rewrite last_context_app. f_equal. symmetry. by apply last_context_no_calls.
  - by destruct Hr as (_ & ? & _).
  - destruct Hr' as [[e1 ->]|[next ->]]; [by destruct Hr as (_ & ? & _)|].
    destruct Hr as (evs2 & Hrun & ->). apply IH in Hrun as ->.
    rewrite last_context_app. f_equal. simpl. symmetry.
    by apply last_context_no_calls.
Qed.

Lemma iteration_call wf cur w ctx evs r w' n c res :
  iteration wf cur w ctx = (evs, r, w') → (n, c, res) ∈ calls evs →
  n = cur ∧ c = ctx ∧ calls evs = [(cur, ctx, res)] ∧
  ∃ process rm, class_of wf cur = PlainClass process rm ∧ process w ctx = (res, w').
Proof.
  intros Hit Hin. destruct (Task.should_stop ctx) eqn:Hs.
  { rewrite iteration_stopped in Hit by done. simplify_eq. by apply elem_of_nil in Hin. }
  destruct (self_nodes wf !! cur) as [cfg|] eqn:Hn.
  2:{ unfold iteration in Hit. rewrite Hs, Hn in Hit. simplify_eq. by apply elem_of_nil in Hin. }
  destruct (class_of wf cur) as [rt|process rm] eqn:Hcls.
  - rewrite (iteration_router wf cur w ctx cfg rt Hs Hn Hcls) in Hit.
    injection Hit as <- <- <-.
    simpl in Hin. destruct (get_next_calls wf cur w ctx) as [Hc _].
    rewrite Hc in Hin. by apply elem_of_nil in Hin.
  - rewrite (iteration_plain wf cur w ctx cfg process rm Hs Hn Hcls) in Hit.
    destruct (process w ctx) as [[c1|e c1] w1] eqn:Hp;
      injection Hit as <- <- <-; simpl in Hin.
    + destruct (get_next_calls wf cur w1 c1) as [Hc _]. simpl. rewrite Hc in Hin |- *.
      apply list_elem_of_singleton in Hin. simplify_eq. by eauto 10.
    + apply list_elem_of_singleton in Hin. simplify_eq. by eauto 10.
Qed.

Lemma run_loop_entry wf fuel cur w ctx evs out w' n c r :
  keeps_nodes_entry wf →
  run_loop wf fuel cur w ctx = Some (evs, out, w') →
  (n, c, r) ∈ calls evs →
  Task.metadata c !! "nodes" = Task.metadata ctx !! "nodes".
Proof.
  intros Hkeep. revert cur w ctx evs.
  induction fuel as [|fuel IH]; intros cur w ctx evs Hrun Hin.
  all: destruct cur as [cur|];
    [|rewrite run_loop_None in Hrun; simplify_eq; by apply elem_of_nil in Hin].
  { done. }
  apply run_loop_Some in Hrun as (evs1 & r1 & w1 & Hit & Hr).
  destruct r1 as [next c1|c1|e c1].
  - destruct Hr as (evs2 & Hrun & ->). rewrite calls_app in Hin.
    apply elem_of_app in Hin as [Hin|Hin].
    + by destruct (iteration_call _ _ _ _ _ _ _ _ _ _ Hit Hin) as (_ & -> & _).
    + rewrite (IH _ _ _ _ Hrun Hin).
      pose proof (iteration_shape _ _ _ _ _ _ _ Hit) as Hsh.
      inversion Hsh as [| |routing r0 Hs Hc Hr'|e1 c2 Hs|routing c2 r0 Hs Hc Hr']; subst.
      * by destruct Hr' as [[? [=]]|[? [= _ <-]]].
      * destruct Hr' as [[? [=]]|[? [= _ <-]]].
        assert ((cur, ctx, Returns c1) ∈
          calls (LogStarting cur :: Process cur ctx (Returns c1) :: LogFinished cur :: routing))
          as Hin1 by (simpl; left).
        destruct (iteration_call _ _ _ _ _ _ _ _ _ _ Hit Hin1)
          as (_ & _ & _ & process & rm & Hcls & Hp).
        by eapply Hkeep.
  - destruct Hr as (-> & _).
    by destruct (iteration_call _ _ _ _ _ _ _ _ _ _ Hit Hin) as (_ & -> & _).
  - destruct Hr as (-> & _).
    by destruct (iteration_call _ _ _ _ _ _ _ _ _ _ Hit Hin) as (_ & -> & _).
Qed.

(** The first call of [process] in the loop is given the context the loop
    starts with. *)
Lemma run_loop_first_call wf fuel cur w ctx evs out w' n c r :
  run_loop wf fuel cur w ctx = Some (evs, out, w') →
  calls evs !! 0 = Some (n, c, r) → c = ctx.
Proof.
  revert cur w ctx evs. induction fuel as [|fuel IH]; intros cur w ctx evs Hrun H0.
  all: destruct cur as [cur|]; [|rewrite run_loop_None in Hrun; by simplify_eq].
  { done. }
  apply run_loop_Some in Hrun as (evs1 & r1 & w1 & Hit & Hr).
  apply iteration_shape in Hit.
  destruct Hit as [Hs| |routing r0 Hs Hc Hr'|e1 c1 Hs|routing c1 r0 Hs Hc Hr'].
  - destruct Hr as (-> & _). done.
  - destruct Hr as (-> & _). done.
  - destruct Hr' as [[e1 ->]|[next ->]].
    + destruct Hr as (-> & _). simpl in H0. by rewrite Hc in H0.
    + destruct Hr as (evs2 & Hrun & ->).
      rewrite calls_app in H0. simpl in H0. rewrite Hc in H0. by eapply IH.
  - destruct Hr as (-> & _). simpl in H0. by simplify_eq.
  - destruct Hr' as [[e1 ->]|[next ->]].
    + destruct Hr as (-> & _). simpl in H0. by simplify_eq.
    + destruct Hr as (evs2 & Hrun & ->). simpl in H0. by simplify_eq.
Qed.

(** Between two calls of [process] the runner leaves the context alone: a
    call is given the context the call before it returned. *)
Lemma run_loop_hand_over wf fuel cur w ctx evs out w' i n1 c1 c1' n2 c2 r2 :
  run_loop wf fuel cur w ctx = Some (evs, out, w') →
  calls evs !! i = Some (n1, c1, Returns c1') →
  calls evs !! S i = Some (n2, c2, r2) → c2 = c1'.
Proof.
  revert cur w ctx evs i. induction fuel as [|fuel IH]; intros cur w ctx evs i Hrun Hi Hsi.
  all: destruct cur as [cur|]; [|rewrite run_loop_None in Hrun; by simplify_eq].
  { done. }
  apply run_loop_Some in Hrun as (evs1 & r1 & w1 & Hit & Hr).
  apply iteration_shape in Hit.
  destruct Hit as [Hs| |routing r0 Hs Hc Hr'|e1 c3 Hs|routing c3 r0 Hs Hc Hr'].
  - destruct Hr as (-> & _). done.
  - destruct Hr as (-> & _). done.
  - destruct Hr' as [[e1 ->]|[next ->]].
    + destruct Hr as (-> & _). simpl in Hi. by rewrite Hc in Hi.
    + destruct Hr as (evs2 & Hrun & ->).
      rewrite calls_app in Hi, Hsi. simpl in Hi, Hsi. rewrite Hc in Hi, Hsi.
      by eapply IH.
  - destruct Hr as (-> & _). simpl in Hsi. done.
  - destruct Hr' as [[e1 ->]|[next ->]].
    + destruct Hr as (-> & _). simpl in Hsi. by rewrite Hc in Hsi.
    + destruct Hr as (evs2 & Hrun & ->).
      rewrite calls_app in Hi, Hsi. simpl in Hi, Hsi. rewrite Hc in Hi, Hsi.
      simpl in Hi, Hsi. destruct i as [|i]; simpl in Hi.
      * simplify_eq. by eapply run_loop_first_call.
      * by eapply IH.
Qed.

(** C8, as amended. In a run that ends: the first call of [process] is
    given a context whose metadata holds the node map of the workflow under
    ["nodes"]; the runner hands every later call the context the call before
    it returned, unchanged; so when no node body removes or replaces the
    entry, every call of [process] is given a context that holds it; and
    whenever [run] returns a context, it is the last context of the loop
    with that one entry removed: the entry is gone and every other entry is
    as the loop left it. *)
Theorem nodes_entry_is_transient wf fuel w ev evs res w' :
  run wf fuel w ev = Some (evs, res, w') →
  (∀ n c r, calls evs !! 0 = Some (n, c, r) →
     Task.metadata c !! "nodes" = Some (MetaNodes (self_nodes wf))) ∧
  (∀ i n1 c1 c1' n2 c2 r2,
     calls evs !! i = Some (n1, c1, Returns c1') →
     calls evs !! S i = Some (n2, c2, r2) → c2 = c1') ∧
  (keeps_nodes_entry wf →
   ∀ n c r, (n, c, r) ∈ calls evs →
     Task.metadata c !! "nodes" = Some (MetaNodes (self_nodes wf))) ∧
  (∀ t final, res = Returned t final →
     ∃ parsed, event_schema (workflow_schema wf) ev = inr parsed ∧
       final = Task.pop_metadata (last_context (initial_context wf parsed) evs) "nodes" ∧
       Task.metadata final !! "nodes" = None ∧
       ∀ k, k ≠ "nodes" →
         Task.metadata final !! k =
         Task.metadata (last_context (initial_context wf parsed) evs) !! k).
Proof.
  intros Hrun. unfold run in Hrun.
  destruct (event_schema _ ev) as [e|parsed].
  { simplify_eq. split; [done|]. split; [done|].
    split; [intros ? ? ? ? Hin; by apply elem_of_nil in Hin | done]. }
  destruct (run_loop _ _ _ _ _) as [[[evs0 out] w0]|] eqn:Hloop; [|done].
  assert (evs0 = evs) as ->.
  { destruct out; [destruct (Task.metadata _ !! _)|]; by simplify_eq. }
  split; [|split; [|split]].
  - intros n c r H0. rewrite (run_loop_first_call _ _ _ _ _ _ _ _ _ _ _ Hloop H0).
    simpl. by rewrite lookup_insert_eq.
  - intros i n1 c1 c1' n2 c2 r2. by eapply run_loop_hand_over.
  - intros Hkeep n c r Hin.
    rewrite (run_loop_entry _ _ _ _ _ _ _ _ _ _ _ Hkeep Hloop Hin).
    simpl. by rewrite lookup_insert_eq.
  - intros t final ->. exists parsed. split; [done|].
    destruct out as [t0 cl|e cl]; [|by simplify_eq].
    pose proof (run_loop_exit _ _ _ _ _ _ _ _ _ Hloop) as ->.
    destruct (Task.metadata _ !! "nodes"); simplify_eq.
    split; [done|]. simpl. split; [by rewrite lookup_delete_eq|].
    intros k Hk. by rewrite lookup_delete_ne.
Qed.

Lemma first_match_det (rs : list (rule world)) w1 w2 ctx :
  (∀ rl, rl ∈ rs → rule_deterministic rl) →
  first_match rs w1 ctx = first_match rs w2 ctx.
Proof.
  induction rs as [|rl rs IH]; intros H; simpl; [done|].
  rewrite (H rl (list_elem_of_here _ _) w1 w2 ctx).
  destruct (rl w2 ctx); [done|]. apply IH. intros ? ?. apply H. by right.
Qed.

Lemma route_of_det (cls : node_class world) rt :
  class_deterministic cls → route_of cls = Some rt → rule_deterministic rt.
Proof.
  destruct cls as [r|process rm]; simpl.
  - intros H [= <-] w1 w2 ctx. unfold route. by rewrite (first_match_det _ w1 w2).
  - intros [_ H] ->. by apply H.
Qed.

Lemma get_next_det wf cur w1 w2 ctx :
  deterministic wf →
  get_next_node_class wf cur w1 ctx = get_next_node_class wf cur w2 ctx.
Proof.
  intros Hdet. unfold get_next_node_class.
  destruct (find_config _ cur) as [nc|]; [|done].
  destruct (connections nc); [done|]. destruct (is_router nc); [|done].
  destruct (self_nodes wf !! cur) as [cfg|]; [|done].
  destruct (route_of _) as [rt|] eqn:E; [|done].
  by rewrite (route_of_det _ rt (Hdet _) E w1 w2 ctx).
Qed.

Lemma iteration_det wf cur w1 w2 ctx :
  deterministic wf →
  (iteration wf cur w1 ctx).1 = (iteration wf cur w2 ctx).1.
Proof.
  intros Hdet. unfold iteration.
  destruct (Task.should_stop ctx); [done|].
  destruct (self_nodes wf !! cur) as [cfg|]; [|done].
  pose proof (Hdet (node cfg)) as Hcls.
  destruct (class_of wf (node cfg)) as [r|process rm]; simpl in *.
  - rewrite (get_next_det wf cur w1 w2 ctx Hdet).
    by destruct (get_next_node_class wf cur w2 ctx).
  - destruct Hcls as [Hp _]. specialize (Hp w1 w2 ctx).
    destruct (process w1 ctx) as [r1 w1'], (process w2 ctx) as [r2 w2'].
    simpl in Hp. subst r2. destruct r1 as [c1|e c1]; [|done].
    rewrite (get_next_det wf cur w1' w2' c1 Hdet).
    by destruct (get_next_node_class wf cur w2' c1).
Qed.

Lemma run_loop_det wf fuel1 fuel2 cur w1 w2 ctx evs1 evs2 out1 out2 w1' w2' :
  deterministic wf →
  run_loop wf fuel1 cur w1 ctx = Some (evs1, out1, w1') →
  run_loop wf fuel2 cur w2 ctx = Some (evs2, out2, w2') →
  evs1 = evs2 ∧ out1 = out2.
Proof.
  intros Hdet. revert fuel2 cur w1 w2 ctx evs1 evs2.
  induction fuel1 as [|fuel1 IH]; intros fuel2 cur w1 w2 ctx evs1 evs2 H1 H2.
  all: destruct cur as [cur|]; [|rewrite run_loop_None in H1, H2; by simplify_eq].
  { done. }
  destruct fuel2 as [|fuel2]; [done|].
  apply run_loop_Some in H1 as (e1 & r1 & v1 & Hit1 & Hr1).
  apply run_loop_Some in H2 as (e2 & r2 & v2 & Hit2 & Hr2).
  pose proof (iteration_det wf cur w1 w2 ctx Hdet) as Heq.
  rewrite Hit1, Hit2 in Heq. simpl in Heq. simplify_eq.
  destruct r2 as [next c|c|e c].
  - destruct Hr1 as (evs1' & Hrun1 & ->), Hr2 as (evs2' & Hrun2 & ->).
    destruct (IH _ _ _ _ _ _ _ Hrun1 Hrun2) as [-> ->]. done.
  - destruct Hr1 as (-> & -> & _), Hr2 as (-> & -> & _). done.
  - destruct Hr1 as (-> & -> & _), Hr2 as (-> & -> & _). done.
Qed.

(** On a copy of the node map, with node bodies and rules whose result is
    a function of the context alone: two runs on the same event that both
    end, whatever the state of the world they start in and the fuel they
    are given, leave the same trace and give the same result. *)
Lemma run_on_copy_deterministic wf fuel1 fuel2 w1 w2 ev evs1 evs2 res1 res2 w1' w2' :
  deterministic wf →
  run wf fuel1 w1 ev = Some (evs1, res1, w1') →
  run wf fuel2 w2 ev = Some (evs2, res2, w2') →
  visited_sequence evs1 = visited_sequence evs2 ∧ res1 = res2 ∧ evs1 = evs2.
Proof.
  intros Hdet H1 H2. unfold run in H1, H2.
  destruct (event_schema _ ev) as [e|parsed]; [by simplify_eq|].
  destruct (run_loop wf fuel1 _ _ _) as [[[e1 o1] v1]|] eqn:Hl1; [|done].
  destruct (run_loop wf fuel2 _ _ _) as [[[e2 o2] v2]|] eqn:Hl2; [|done].
  destruct (run_loop_det _ _ _ _ _ _ _ _ _ _ _ _ _ Hdet Hl1 Hl2) as [-> ->].
  destruct o2 as [t c|e c]; [destruct (Task.metadata c !! "nodes")|]; by simplify_eq.
Qed.

End Runner.



(** Nor are the rules of a router asked when its configuration is not
    marked [is_router]: the next node is the first connection, B, although
    [route] gives C. *)
Lemma unmarked_router_ignores_rules :
  class_of unmarked "R" = RouterClass (mkRouter [] (Some "C")) ∧
  find_config (workflow_schema unmarked) "R" = Some (config "R" ["B"] false) ∧
  route (mkRouter [] (Some "C")) 0 (initial_context unmarked ∅) = Some "C" ∧
  routed (iteration unmarked "R" 0 (initial_context unmarked ∅)).1.1 = [] ∧
  (iteration unmarked "R" 0 (initial_context unmarked ∅)).1.2 =
    Next (Some "B") (initial_context unmarked ∅).
Proof. repeat split. Qed.


(** The mixed case: [process] is called, then [route] picks the next node. *)
Lemma mixed_node_processed_then_routed :
  calls (iteration mixed "M" 0 (initial_context mixed ∅)).1.1 =
    [("M", initial_context mixed ∅,
      Returns (Task.update_node (initial_context mixed ∅) "M" {["seen" := VBool true]}))] ∧
  routed (iteration mixed "M" 0 (initial_context mixed ∅)).1.1 = ["M"] ∧
  (iteration mixed "M" 0 (initial_context mixed ∅)).1.2 =
    Next (Some "C") (Task.update_node (initial_context mixed ∅) "M" {["seen" := VBool true]}).
Proof. repeat split. Qed.


(** C3 on a workflow whose first node sets the flag: B never runs. *)
Lemma stop_ends_run_witness :
  ∃ evs final w c c',
    run stopper 5 0 ∅ = Some (evs, Returned Stopped final, w) ∧
    calls evs !! 0 = Some ("A", c, Returns c') ∧ Task.should_stop c' = true ∧
    length (calls evs) = 1 ∧ final = Task.pop_metadata c' "nodes" ∧
    visited_sequence evs = ["A"] ∧ Task.nodes final !! "B" = None.
Proof.
  eexists _, _, _, _, _.
  split; [vm_compute; reflexivity|]. split; [reflexivity|]. split; [reflexivity|].
  split; [|split; [|split; reflexivity]].
  - eapply (proj1 (stop_ends_run stopper) 5 0 ∅ _ _ _ 0);
      [vm_compute; reflexivity | reflexivity | reflexivity].
  - eapply (proj1 (stop_ends_run stopper) 5 0 ∅ _ (Returned Stopped _) _ 0);
      [vm_compute; reflexivity | reflexivity | reflexivity].
Defined.

(** C5 on a workflow whose first node writes a result and raises. *)
Lemma node_error_aborts_run_witness :
  ∃ evs res w c c',
    run failing 5 0 ∅ = Some (evs, res, w) ∧
    calls evs !! 0 = Some ("A", c, Raises boom c') ∧
    Task.nodes c' !! "A" = Some {["partial" := VInt 1]} ∧
    length (calls evs) = 1 ∧ res = Raised boom c' ∧
    ∃ pre, evs = pre ++ [LogStarting "A"; Process "A" c (Raises boom c');
                         LogError "A" (exn_msg boom); LogFinished "A"].
Proof.
  eexists _, _, _, _, _.
  split; [vm_compute; reflexivity|]. split; [reflexivity|]. split; [reflexivity|].
  eapply (proj1 (node_error_aborts_run failing) 5 0 ∅ _ _ _ 0);
    [vm_compute; reflexivity | reflexivity].
Defined.

Lemma scenario_keeps_nodes_entry : keeps_nodes_entry scenario.
Proof.
  intros n process rm w ctx ctx' w'. simpl.
  destruct (decide (n = "R")); [done|]. intros [= <- <-] [= <- <-]. done.
Qed.

(** The amended C8 on scenario 1. *)
Lemma nodes_entry_is_transient_witness :
  ∃ evs res w,
    run scenario 5 0 flag_on = Some (evs, res, w) ∧
    keeps_nodes_entry scenario ∧
    (∀ n c r, calls evs !! 0 = Some (n, c, r) →
       Task.metadata c !! "nodes" = Some (MetaNodes (self_nodes scenario))) ∧
    (∀ i n1 c1 c1' n2 c2 r2,
       calls evs !! i = Some (n1, c1, Returns c1') →
       calls evs !! S i = Some (n2, c2, r2) → c2 = c1') ∧
    (keeps_nodes_entry scenario →
     ∀ n c r, (n, c, r) ∈ calls evs →
       Task.metadata c !! "nodes" = Some (MetaNodes (self_nodes scenario))) ∧
    (∀ t final, res = Returned t final →
       ∃ parsed, event_schema (workflow_schema scenario) flag_on = inr parsed ∧
         final = Task.pop_metadata (last_context (initial_context scenario parsed) evs) "nodes" ∧
         Task.metadata final !! "nodes" = None ∧
         ∀ k, k ≠ "nodes" →
           Task.metadata final !! k =
           Task.metadata (last_context (initial_context scenario parsed) evs) !! k).
Proof.
  eexists _, _, _. split; [vm_compute; reflexivity|].
  split; [apply scenario_keeps_nodes_entry|].
  eapply (nodes_entry_is_transient scenario 5 0 flag_on).
  vm_compute. reflexivity.
Defined.

(** C8 as first stated fails: A removes the entry, and B is run on a context
    without it. *)
Lemma forgetful_node_hides_entry :
  ∃ evs res w c r,
    run forgetful 5 0 ∅ = Some (evs, res, w) ∧
    calls evs !! 1 = Some ("B", c, r) ∧ Task.metadata c !! "nodes" = None.
Proof. eexists _, _, _, _, _. split; [vm_compute; reflexivity|]. split; reflexivity. Qed.

(** Scenario 1 *)
Example scenario_flag_on :
  ∃ evs res w, run scenario 5 0 flag_on = Some (evs, res, w) ∧
    visited_sequence evs = ["A"; "R"; "B"].
Proof. eexists _, _, _. split; [vm_compute; reflexivity | reflexivity]. Qed.

Example scenario_flag_off :
  ∃ evs res w, run scenario 5 0 flag_off = Some (evs, res, w) ∧
    visited_sequence evs = ["A"; "R"; "C"].
Proof. eexists _, _, _. split; [vm_compute; reflexivity | reflexivity]. Qed.


End EngineFacts.

Module ConcurrentFacts.
Import Concurrent Examples.

Lemma all_returned_Some pool rs :
  all_returned pool = Some rs ↔ pool = Return <$> rs.
Proof.
  revert rs. induction pool as [|co pool IH]; intros rs; simpl.
  - split; [intros [= <-]; done | by destruct rs].
  - destruct co as [eff nx|r|e].
    + split; [done | by destruct rs].
    + destruct (all_returned pool) as [rs'|] eqn:E; simpl.
      * split.
        -- intros [= <-]. simpl. f_equal. by apply IH.
        -- destruct rs as [|r0 rs0]; [done|]. intros [= -> Hp].
           apply IH in Hp. by simplify_eq.
      * split; [done|]. destruct rs as [|r0 rs0]; [done|]. intros [= -> Hp].
        apply IH in Hp. done.
    + split; [done | by destruct rs].
Qed.

Lemma siblings_run_length s evs s' :
  siblings_run s evs s' → length s'.2 = length s.2.
Proof.
  induction 1 as [|s1 ev s2 evs s3 Hstep _ IH]; [done|].
  rewrite IH. destruct Hstep. simpl. by rewrite length_insert.
Qed.

(** What the call gives is what the siblings did: a result list stands for
    a run of the siblings in which each of them returned, an exception for a
    run up to a resumption at which a sibling raised it. *)
Lemma gather_sound schedule shared pool evs res :
  gather schedule shared pool = Some (evs, res) →
  match res with
  | Gathered rs c => siblings_run (shared, pool) evs (c, Return <$> rs)
  | Propagated e c =>
    ∃ evs1 i evs2 s, evs = evs1 ++ (i, Failed e) :: evs2 ∧
      siblings_run (shared, pool) evs1 s ∧ raises_at s i e
  end.
Proof.
  revert shared pool evs res.
  induction schedule as [|i schedule IH]; intros shared pool evs res; simpl.
  all: destruct (all_returned pool) as [rs|] eqn:Hall.
  1,3: intros [= <- <-]; apply all_returned_Some in Hall as ->; constructor.
  { done. }
  destruct (pool !! i) as [[eff nx|r0|e0]|] eqn:Hi.
  - destruct (nx shared) as [eff' nx'|r1|e1] eqn:Hnx.
    + destruct (gather schedule _ _) as [[evs' res']|] eqn:Hg; [|done].
      intros [= <- <-]. apply IH in Hg.
      assert (resumed (shared, pool) (i, Suspended)
                (eff shared, <[i := Resume eff' nx']> pool)) as Hstep.
      { rewrite <- Hnx. change Suspended with (after_resume (Resume eff' nx')).
        rewrite <- Hnx. constructor; [done|]. intros e. by rewrite Hnx. }
      destruct res' as [rs c|e c].
      * by econstructor.
      * destruct Hg as (evs1 & j & evs2 & s & -> & Hrun & Hraise).
        exists ((i, Suspended) :: evs1), j, evs2, s. split; [done|].
        split; [by econstructor|done].
    + destruct (gather schedule _ _) as [[evs' res']|] eqn:Hg; [|done].
      intros [= <- <-]. apply IH in Hg.
      assert (resumed (shared, pool) (i, Done r1)
                (eff shared, <[i := Return r1]> pool)) as Hstep.
      { rewrite <- Hnx. change (Done r1) with (after_resume (Return r1)).
        rewrite <- Hnx. constructor; [done|]. intros e. by rewrite Hnx. }
      destruct res' as [rs c|e c].
      * by econstructor.
      * destruct Hg as (evs1 & j & evs2 & s & -> & Hrun & Hraise).
        exists ((i, Done r1) :: evs1), j, evs2, s. split; [done|].
        split; [by econstructor|done].
    + destruct (drain schedule _ _) as [evs' c]. intros [= <- <-].
      exists [], i, evs', (shared, pool). split; [done|]. split; [constructor|].
      right. by exists eff, nx.
  - intros Hg. by apply IH in Hg.
  - destruct (drain schedule _ _) as [evs' c]. intros [= <- <-].
    exists [], i, evs', (shared, pool). split; [done|]. split; [constructor|].
    by left.
  - intros Hg. by apply IH in Hg.
Qed.

Lemma all_returned_pending (returned : list retval) co rest :
  (∀ r, co ≠ Return r) → all_returned ((Return <$> returned) ++ co :: rest) = None.
Proof.
  intros Hco. induction returned as [|r returned IH]; csimpl.
  - destruct co; [done| |done]. by destruct (Hco r).
  - by rewrite IH.
Qed.

Lemma lookup_pending (returned : list retval) (co : coroutine) rest :
  ((Return <$> returned) ++ co :: rest) !! length returned = Some co.
Proof.
  rewrite lookup_app_r by (by rewrite length_fmap).
  by rewrite length_fmap, Nat.sub_diag.
Qed.

Lemma insert_pending (returned : list retval) (co co' : coroutine) rest :
  <[length returned := co']> ((Return <$> returned) ++ co :: rest) =
  (Return <$> returned) ++ co' :: rest.
Proof.
  rewrite insert_app_r_alt by (by rewrite length_fmap).
  by rewrite length_fmap, Nat.sub_diag.
Qed.

(** Some schedule brings every group to an end: run each task in turn
    until it has finished. *)
Lemma gather_completes_from rest :
  ∀ (returned : list retval) shared,
    ∃ schedule evs res,
      gather schedule shared ((Return <$> returned) ++ rest) = Some (evs, res).
Proof.
  induction rest as [|co rest IH].
  - intros returned shared. exists [], [], (Gathered returned shared).
    rewrite app_nil_r. simpl.
    by rewrite (proj2 (all_returned_Some (Return <$> returned) returned) eq_refl).
  - induction co as [eff nx IHco|r|e]; intros returned shared.
    + destruct (nx shared) as [eff' nx'|r1|e1] eqn:Hnx.
      * destruct (IHco shared returned (eff shared)) as (sch & evs & res & Hg).
        rewrite Hnx in Hg.
        exists (length returned :: sch), ((length returned, Suspended) :: evs), res.
        simpl. rewrite all_returned_pending by done.
        rewrite lookup_pending, Hnx, insert_pending, Hg. done.
      * destruct (IHco shared returned (eff shared)) as (sch & evs & res & Hg).
        rewrite Hnx in Hg.
        exists (length returned :: sch), ((length returned, Done r1) :: evs), res.
        simpl. rewrite all_returned_pending by done.
        rewrite lookup_pending, Hnx, insert_pending, Hg. done.
      * exists [length returned], [(length returned, Failed e1)],
          (Propagated e1 (eff shared)).
        simpl. rewrite all_returned_pending by done.
        by rewrite lookup_pending, Hnx.
    + destruct (IH (returned ++ [r]) shared) as (sch & evs & res & Hg).
      exists sch, evs, res. rewrite fmap_app, <- app_assoc in Hg. done.
    + exists [length returned], [(length returned, Failed e)], (Propagated e shared).
      simpl. rewrite all_returned_pending by done.
      by rewrite lookup_pending.
Qed.

Lemma gather_completes shared pool :
  ∃ schedule evs res, gather schedule shared pool = Some (evs, res).
Proof. apply (gather_completes_from pool []). Qed.

Lemma never_raises_run s evs s' :
  siblings_run s evs s' →
  (∀ co, co ∈ s.2 → never_raises co) → ∀ co, co ∈ s'.2 → never_raises co.
Proof.
  induction 1 as [|s1 ev s2 evs s3 Hstep _ IH]; [done|].
  intros Hall. apply IH. destruct Hstep as [shared pool i eff nx Hi Hnx]. simpl in *.
  intros co [j Hj]%list_elem_of_lookup.
  destruct (decide (j = i)) as [->|Hne].
  - rewrite list_lookup_insert_eq in Hj by (by eapply lookup_lt_Some).
    injection Hj as <-.
    assert (never_raises (Resume eff nx)) as Hnr
      by (apply Hall; by eapply list_elem_of_lookup_2).
    by inversion Hnr.
  - rewrite list_lookup_insert_ne in Hj by done.
    apply Hall. by eapply list_elem_of_lookup_2.
Qed.

Lemma always_raises_run s evs s' i co :
  siblings_run s evs s' → s.2 !! i = Some co → always_raises co →
  ∃ co', s'.2 !! i = Some co' ∧ always_raises co'.
Proof.
  intros Hrun. revert co.
  induction Hrun as [|s1 ev s2 evs s3 Hstep _ IH]; intros co Hi Har; [by eauto|].
  destruct Hstep as [shared pool j eff nx Hj Hnx]. simpl in *.
  destruct (decide (i = j)) as [->|Hne].
  - rewrite Hj in Hi. injection Hi as <-. inversion Har as [|? ? Hnext]; subst.
    apply (IH (nx shared)); [|done].
    simpl. by rewrite list_lookup_insert_eq by (by eapply lookup_lt_Some).
  - apply (IH co); [|done]. simpl. by rewrite list_lookup_insert_ne.
Qed.

(** C4. For a group whose siblings are listed in the node map, and whatever
    the order in which the event loop resumes the siblings.  A call that
    ends with a result list stands for a run of the siblings themselves in
    which every sibling returned and none raised, and gives one result per
    sibling, the result at position [i] being what the sibling at position
    [i] of [concurrent_nodes] returned; a call that ends with an exception
    stands for a run of the siblings up to a resumption at which a sibling
    raised that exception, and gives no result list.  So when every
    sibling's [process] completes without error the call gives the result
    list, and when a sibling's [process] raises the call raises.  And some
    order of resumption brings the call to an end. *)
Theorem fanout_all_or_nothing process self ctx configs nc siblings :
  Task.metadata ctx !! "nodes" = Some (MetaNodes configs) →
  configs !! self = Some nc → concurrent_nodes nc = Some siblings →
  (∀ schedule evs res,
     execute_nodes_concurrently process self schedule ctx = Some (evs, res) →
     match res with
     | Gathered rs c =>
       length rs = length siblings ∧
       siblings_run (ctx, map process siblings) evs (c, Return <$> rs)
     | Propagated e c =>
       ∃ evs1 i evs2 s, evs = evs1 ++ (i, Failed e) :: evs2 ∧
         siblings_run (ctx, map process siblings) evs1 s ∧ raises_at s i e
     end) ∧
  ((∀ n, n ∈ siblings → never_raises (process n)) →
   ∀ schedule evs res,
     execute_nodes_concurrently process self schedule ctx = Some (evs, res) →
     ∃ rs c, res = Gathered rs c ∧ length rs = length siblings ∧
       siblings_run (ctx, map process siblings) evs (c, Return <$> rs)) ∧
  ((∃ n, n ∈ siblings ∧ always_raises (process n)) →
   ∀ schedule evs res,
     execute_nodes_concurrently process self schedule ctx = Some (evs, res) →
     ∃ e c, res = Propagated e c) ∧
  (∃ schedule evs res,
     execute_nodes_concurrently process self schedule ctx = Some (evs, res)).
Proof.
  intros Hm Hc Hs. unfold execute_nodes_concurrently. rewrite Hm, Hc, Hs.
  assert (∀ schedule evs res,
    gather schedule ctx (map process siblings) = Some (evs, res) →
    match res with
    | Gathered rs c =>
      length rs = length siblings ∧
      siblings_run (ctx, map process siblings) evs (c, Return <$> rs)
    | Propagated e c =>
      ∃ evs1 i evs2 s, evs = evs1 ++ (i, Failed e) :: evs2 ∧
        siblings_run (ctx, map process siblings) evs1 s ∧ raises_at s i e
    end) as Hsound.
  { intros schedule evs res Hg. apply gather_sound in Hg.
    destruct res as [rs c|e c]; [|done]. split; [|done].
    apply siblings_run_length in Hg. simpl in Hg.
    by rewrite length_fmap, length_map in Hg. }
  split; [done|]. split; [|split; [|apply gather_completes]].
  - intros Hnever schedule evs res Hg. apply Hsound in Hg.
    destruct res as [rs c|e c]; [by exists rs, c|].
    destruct Hg as (evs1 & i & evs2 & s & _ & Hrun & Hraise). exfalso.
    pose proof (never_raises_run _ _ _ Hrun) as Hs'. simpl in Hs'.
    assert (∀ co, co ∈ s.2 → never_raises co) as Hall.
    { apply Hs'. intros co (n & -> & Hn)%list_elem_of_fmap. by apply Hnever. }
    destruct Hraise as [Hi|(eff & nx & Hi & Hnx)].
    + apply list_elem_of_lookup_2, Hall in Hi. inversion Hi.
    + apply list_elem_of_lookup_2, Hall in Hi. inversion Hi as [|? ? Hnext]; subst.
      specialize (Hnext s.1). rewrite Hnx in Hnext. inversion Hnext.
  - intros (n & Hn & Har) schedule evs res Hg. apply Hsound in Hg.
    destruct res as [rs c|e c]; [|by eauto]. destruct Hg as [_ Hrun]. exfalso.
    apply list_elem_of_lookup in Hn as [i Hi].
    destruct (always_raises_run _ _ _ i (process n) Hrun) as (co' & Hco' & Har'); [|done|].
    { simpl. by rewrite list_lookup_fmap, Hi. }
    simpl in Hco'. rewrite list_lookup_fmap in Hco'.
    destruct (rs !! i); simplify_eq/=. inversion Har'.
Qed.

Lemma writes_never_raises name : never_raises (writes name).
Proof. repeat (constructor; intros). Qed.

Lemma raising_Y_always_raises : always_raises raising_Y.
Proof. repeat (constructor; intros). Qed.

(** C4 on the group F of X, Y and Z: with a Y that completes, and with a Y
    that raises. *)
Lemma fanout_all_or_nothing_witness :
  (∀ schedule evs res,
     execute_nodes_concurrently (group_process (writes "Y")) "F" schedule group_context
       = Some (evs, res) →
     ∃ rs c, res = Gathered rs c ∧ length rs = length ["X"; "Y"; "Z"] ∧
       siblings_run (group_context, map (group_process (writes "Y")) ["X"; "Y"; "Z"])
         evs (c, Return <$> rs)) ∧
  (∀ schedule evs res,
     execute_nodes_concurrently (group_process raising_Y) "F" schedule group_context
       = Some (evs, res) →
     ∃ e c, res = Propagated e c) ∧
  (∃ schedule evs res,
     execute_nodes_concurrently (group_process raising_Y) "F" schedule group_context
       = Some (evs, res)).
Proof.
  split; [|split].
  - apply (fanout_all_or_nothing (group_process (writes "Y")) "F" group_context
             group_configs (mkNodeConfig "F" [] false None (Some ["X"; "Y"; "Z"]))
             ["X"; "Y"; "Z"] eq_refl eq_refl eq_refl).
    intros n _. unfold group_process. destruct (decide (n = "Y")); apply writes_never_raises.
  - apply (fanout_all_or_nothing (group_process raising_Y) "F" group_context
             group_configs (mkNodeConfig "F" [] false None (Some ["X"; "Y"; "Z"]))
             ["X"; "Y"; "Z"] eq_refl eq_refl eq_refl).
    exists "Y". split; [set_solver|]. apply raising_Y_always_raises.
  - apply (fanout_all_or_nothing (group_process raising_Y) "F" group_context
             group_configs (mkNodeConfig "F" [] false None (Some ["X"; "Y"; "Z"]))
             ["X"; "Y"; "Z"] eq_refl eq_refl eq_refl).
Defined.

(** Z finishes first here; the results still come in the declared order. *)
Example group_results_in_order :
  ∃ evs shared,
    execute_nodes_concurrently (group_process (writes "Y")) "F" [2; 2; 0; 1; 1; 0] group_context
      = Some (evs, Gathered [SharedContext; SharedContext; SharedContext] shared) ∧
    evs = [(2, Suspended); (2, Done SharedContext); (0, Suspended); (1, Suspended);
           (1, Done SharedContext); (0, Done SharedContext)] ∧
    Task.nodes shared !! "Z" = Some {["done" := VBool true; "started" := VBool true]}.
Proof. eexists _, _. split; [vm_compute; reflexivity|]. split; reflexivity. Qed.

(** Scenario 3: Y writes that it has started and raises; X, still queued,
    runs on before the caller is resumed with the exception of Y, and Z is
    left where it was. *)
Example group_fails_with_Y :
  ∃ evs shared,
    execute_nodes_concurrently (group_process raising_Y) "F" [0; 2; 1; 0] group_context
      = Some (evs, Propagated boom shared) ∧
    evs = [(0, Suspended); (2, Suspended); (1, Failed boom); (0, Done SharedContext)] ∧
    Task.nodes shared !! "X" = Some {["done" := VBool true; "started" := VBool true]} ∧
    Task.nodes shared !! "Z" = Some {["started" := VBool true]}.
Proof. eexists _, _. split; [vm_compute; reflexivity|]. repeat split; reflexivity. Qed.

End ConcurrentFacts.


(** * Further properties of the code *)

Module ValidatorBehaviour.
Import Validator ValidatorFacts Examples.

(** X1. [_has_cycle] answers [True] exactly when the successor graph has a
    cycle and [False] exactly when it has none; it always answers, and any
    recursion depth above the number of classes the schema mentions gives
    the same answer. *)
Theorem has_cycle_decides (s : WorkflowSchema) :
  (has_cycle s = Some true ↔ cyclic s) ∧
  (has_cycle s = Some false ↔ ¬ cyclic s) ∧
  (∀ depth, size (mentioned s) < depth → has_cycle_depth s depth = has_cycle s).
Proof.
  destruct (has_cycle_spec s) as (b & Hb & Hiff).
  split; [|split].
  - rewrite Hb. split.
    + intros [= ->]. by apply Hiff.
    + intros Hc. f_equal. by apply Hiff.
  - rewrite Hb. split.
    + intros [= ->] Hc. apply Hiff in Hc. done.
    + intros Hn. destruct b; [|done]. destruct Hn. by apply Hiff.
  - intros depth Hd.
    destruct (has_cycle_from_spec s depth (nodes s) (mkDfs ∅ ∅)) as (b' & Hb' & Hpost);
      [done|done|apply dfs_inv_init|done|].
    unfold has_cycle_depth at 1. rewrite Hb', Hb. f_equal.
    destruct b'.
    + symmetry. by apply Hiff.
    + destruct b; [|done]. exfalso.
      destruct Hpost as (st' & Hinv & Hrs & _ & Hall).
      assert (cyclic s) as [n Hn] by by apply Hiff.
      assert (configured s n) as (nc & Hnc & <-).
      { destruct (tc_first_edge s _ Hn) as (v & Hv & _). by eapply edge_configured. }
      eapply (inv_acyclic s st' Hinv); [|exact Hn].
      split; [by apply Hall|]. rewrite Hrs. set_solver.
Qed.

(** X2. [_get_reachable_nodes] returns exactly the classes that can be
    reached from the start class along successor edges: the set holds the
    start class, holds only the start class and classes the schema
    mentions, and is closed under successor edges. *)
Theorem reachable_nodes_exact (s : WorkflowSchema) :
  ∃ R, get_reachable_nodes s = Some R ∧
    (∀ n, n ∈ R ↔ reachable s n) ∧
    start s ∈ R ∧
    R ⊆ {[start s]} ∪ mentioned s ∧
    (∀ a b, a ∈ R → edge s a b → b ∈ R).
Proof.
  destruct (get_reachable_nodes_spec s) as (R & HR & Hiff).
  exists R. split; [done|]. split; [done|]. split; [|split].
  - apply Hiff. apply rtc_refl.
  - intros n Hn. apply Hiff in Hn. by apply reachable_universe in Hn.
  - intros a b Ha Hab. apply Hiff. apply Hiff in Ha.
    eapply rtc_r; [exact Ha|done].
Qed.

Lemma validate_connections_from_first ncs name :
  validate_connections_from ncs = inl (MultipleConnections name) ↔
  ∃ pre nc post, ncs = pre ++ nc :: post ∧ node nc = name ∧
    1 < length (connections nc) ∧ is_router nc = false ∧
    ∀ nc', nc' ∈ pre → length (connections nc') ≤ 1 ∨ is_router nc' = true.
Proof.
  induction ncs as [|nc0 ncs IH]; simpl.
  - split; [done|]. intros (pre & nc & post & Heq & _). by destruct pre.
  - destruct (1 <? length (connections nc0)) eqn:Hlen; simpl.
    + apply Nat.ltb_lt in Hlen. destruct (is_router nc0) eqn:Hr; simpl.
      * rewrite IH. split.
        -- intros (pre & nc & post & -> & Hrest). exists (nc0 :: pre), nc, post.
           split; [done|]. destruct Hrest as (? & ? & ? & Hpre). do 3 (split; [done|]).
           intros nc' [->|Hin]%elem_of_cons; [by right|by apply Hpre].
        -- intros (pre & nc & post & Heq & Hn & Hl & Hr' & Hpre).
           destruct pre as [|p pre]; simplify_eq/=; [congruence|].
           exists pre, nc, post. do 4 (split; [done|]).
           intros nc' Hin. apply Hpre. by right.
      * split.
        -- intros [= <-]. exists [], nc0, ncs. do 4 (split; [done|]). by intros ? ?%elem_of_nil.
        -- intros (pre & nc & post & Heq & Hn & Hl & Hr' & Hpre).
           destruct pre as [|p pre]; simplify_eq/=; [done|].
           destruct (Hpre p) as [?|?]; [by left|lia|congruence].
    + apply Nat.ltb_ge in Hlen. rewrite IH. split.
      * intros (pre & nc & post & -> & Hrest). exists (nc0 :: pre), nc, post.
        split; [done|]. destruct Hrest as (? & ? & ? & Hpre). do 3 (split; [done|]).
        intros nc' [->|Hin]%elem_of_cons; [by left|by apply Hpre].
      * intros (pre & nc & post & Heq & Hn & Hl & Hr' & Hpre).
        destruct pre as [|p pre]; simplify_eq/=; [lia|].
        exists pre, nc, post. do 4 (split; [done|]).
        intros nc' Hin. apply Hpre. by right.
Qed.

Lemma validate_connections_from_error ncs e :
  validate_connections_from ncs = inl e → ∃ name, e = MultipleConnections name.
Proof.
  induction ncs as [|nc ncs IH]; simpl; [done|].
  destruct (_ && _); [|done]. intros [= <-]. by eexists.
Qed.

(** X3. [_validate_connections] raises for the first configuration, in the
    order of the list, that has several connections and is not marked a
    router, and names the class of that one; it raises no other error; and
    it returns normally exactly when every configuration has at most one
    connection or is marked a router. *)
Theorem arity_error_names_first_offender (s : WorkflowSchema) :
  (∀ name, validate_connections s = inl (MultipleConnections name) ↔
     ∃ pre nc post, nodes s = pre ++ nc :: post ∧ node nc = name ∧
       1 < length (connections nc) ∧ is_router nc = false ∧
       ∀ nc', nc' ∈ pre → length (connections nc') ≤ 1 ∨ is_router nc' = true) ∧
  (∀ e, validate_connections s = inl e → ∃ name, e = MultipleConnections name) ∧
  (validate_connections s = inr () ↔
     ∀ nc, nc ∈ nodes s → length (connections nc) ≤ 1 ∨ is_router nc = true).
Proof.
  split; [|split].
  - intros name. apply validate_connections_from_first.
  - intros e. apply validate_connections_from_error.
  - pose proof (validate_connections_spec s) as Hspec. split.
    + intros Hok nc Hnc.
      destruct (decide (1 < length (connections nc))) as [Hl|Hl]; [|left; lia].
      destruct (is_router nc) eqn:Hr; [by right|].
      destruct Hspec as [_ Hbad]. destruct Hbad as [e He]; [by exists nc|congruence].
    + intros Hall. destruct (validate_connections s) as [e|[]] eqn:Hv; [|done].
      destruct Hspec as [Hbad _]. destruct Hbad as (nc & Hnc & Hl & Hr); [by exists e|].
      destruct (Hall nc Hnc); [lia|congruence].
Qed.

(** X4. Which error [validate] raises. The cycle error, exactly when the
    graph has a cycle; the error that lists unreachable nodes, exactly when
    the graph has no cycle and the listed set is the non-empty set of
    configured classes out of reach of the start class; the error on
    connections, exactly when the graph has no cycle, every configured class
    is in reach, and [_validate_connections] raises that error. *)
Theorem validate_error_priority (s : WorkflowSchema) :
  (validate s = Some (inl CycleError) ↔ cyclic s) ∧
  (∀ U, validate s = Some (inl (UnreachableNodes U)) ↔
     ¬ cyclic s ∧ U ≠ ∅ ∧ ∀ n, n ∈ U ↔ configured s n ∧ ¬ reachable s n) ∧
  (∀ name, validate s = Some (inl (MultipleConnections name)) ↔
     ¬ cyclic s ∧ ¬ some_unreachable s ∧
     validate_connections s = inl (MultipleConnections name)).
Proof.
  unfold validate.
  destruct (validate_dag_spec s) as [[Hc Hd]|[(Hc & Hu & R & HR & Hd)|(Hc & Hu & Hd)]];
    rewrite Hd.
  - split; [done|]. split; intros; (split; [done|tauto]).
  - split; [split; [done|tauto]|]. split; [|intros; split; [done|tauto]].
    intros U. split.
    + intros [= <-]. split; [done|]. split.
      * destruct Hu as (n & Hn). apply (unreachable_set s R n HR) in Hn. set_solver.
      * intros n. by apply unreachable_set.
    + intros (_ & _ & HU). do 3 f_equal. apply set_eq. intros n.
      rewrite HU. by apply unreachable_set.
  - split; [split; [|tauto]|].
    { intros [= Heq]. apply validate_connections_from_error in Heq as [? ?]. done. }
    split.
    + intros U. split.
      * intros [= Heq]. apply validate_connections_from_error in Heq as [? ?]. done.
      * intros (_ & Hne & HU). destruct Hu.
        apply set_choose_L in Hne as [n Hn]. exists n. by apply HU.
    + intros name. split.
      * intros [= ->]. done.
      * intros (_ & _ & ->). done.
Qed.

(** X5. A schema that [validate] accepts and that configures some node
    configures its start class, and every configured class is in reach of
    the start class. *)
Theorem accepted_schema_configures_start (s : WorkflowSchema) :
  validate s = Some (inr ()) → nodes s ≠ [] →
  configured s (start s) ∧ ∀ nc, nc ∈ nodes s → reachable s (node nc).
Proof.
  intros Hv Hne.
  destruct (validate_cases s) as [[[e He] _]|[_ Hno]]; [congruence|].
  assert (∀ nc, nc ∈ nodes s → reachable s (node nc)) as Hall.
  { intros nc Hnc. destruct (decide (start s = node nc)) as [<-|Hd]; [apply rtc_refl|].
    destruct (get_reachable_nodes_spec s) as (R & HR & Hiff).
    apply Hiff. destruct (decide (node nc ∈ R)) as [|Hn]; [done|].
    destruct Hno. right; left. exists (node nc). split; [by exists nc|]. by rewrite <- Hiff. }
  split; [|done].
  assert (∃ nc, nc ∈ nodes s) as [nc Hin].
  { destruct (nodes s) as [|nc rest]; [done|]. exists nc. left. }
  pose proof (Hall nc Hin) as Hr. apply rtc_inv in Hr as [Heq|(y & Hy & _)].
  - by exists nc.
  - by eapply edge_configured.
Qed.

(** X5 on the schema of scenario 1. *)
Lemma accepted_schema_configures_start_witness :
  configured scenario_schema (start scenario_schema) ∧
  ∀ nc, nc ∈ nodes scenario_schema → reachable scenario_schema (node nc).
Proof.
  apply (accepted_schema_configures_start scenario_schema).
  - vm_compute. reflexivity.
  - discriminate.
Defined.

End ValidatorBehaviour.

Module NodeMapFacts.
Import Validator ValidatorFacts Engine EngineFacts.

Section NodeMap.
Context {world : Type}.
Implicit Types wf : Workflow world.

Lemma add_connections_lookup cs (m : gmap string NodeConfig) n :
  add_connections cs m !! n =
    match m !! n with
    | Some c => Some c
    | None => if decide (n ∈ cs) then Some (default_config n) else None
    end.
Proof.
  revert m. induction cs as [|c cs IH]; intros m.
  - simpl. by destruct (m !! n).
  - change (add_connections (c :: cs) m)
      with (add_connections cs match m !! c with
                               | Some _ => m
                               | None => <[c := default_config c]> m
                               end).
    rewrite IH. destruct (m !! c) eqn:Hc.
    + destruct (m !! n) eqn:Hn; [done|].
      assert (n ≠ c) by congruence.
      repeat case_decide; try done; set_solver.
    + destruct (decide (n = c)) as [->|Hne].
      * rewrite lookup_insert_eq, Hc. destruct (decide (c ∈ c :: cs)) as [|Hn]; [done|]. destruct Hn. set_solver.
      * rewrite lookup_insert_ne by done. destruct (m !! n); [done|].
        repeat case_decide; try done; set_solver.
Qed.

Lemma initialize_nodes_lookup ncs (m : gmap string NodeConfig) n :
  initialize_nodes_from ncs m !! n =
    match last (filter (λ nc, node nc = n) ncs) with
    | Some nc => Some nc
    | None =>
      match m !! n with
      | Some c => Some c
      | None => if decide (n ∈ flat_map connections ncs)
                then Some (default_config n) else None
      end
    end.
Proof.
  revert m. induction ncs as [|nc ncs IH]; intros m.
  - simpl. by destruct (m !! n).
  - change (initialize_nodes_from (nc :: ncs) m)
      with (initialize_nodes_from ncs (add_connections (connections nc) (<[node nc := nc]> m))).
    rewrite IH, add_connections_lookup. rewrite filter_cons.
    destruct (decide (node nc = n)) as [<-|Hne].
    + rewrite lookup_insert_eq.
      destruct (filter _ ncs) as [|x l] eqn:Hf; [done|].
      rewrite (last_cons nc (x :: l)).
      destruct (last (x :: l)) eqn:Hl; [done|by apply last_None in Hl].
    + rewrite lookup_insert_ne by done.
      destruct (last _); [done|]. destruct (m !! n); [done|].
      change (flat_map connections (nc :: ncs))
        with (connections nc ++ flat_map connections ncs).
      repeat case_decide; try done; set_solver.
Qed.

Lemma find_config_head s n :
  find_config s n = head (filter (λ nc, node nc = n) (nodes s)).
Proof.
  unfold find_config. induction (nodes s) as [|nc ncs IH]; [done|].
  simpl. rewrite filter_cons. destruct (decide (node nc = n)).
  - by rewrite bool_decide_true.
  - by rewrite bool_decide_false.
Qed.

Lemma mentioned_cases s n :
  n ∈ mentioned s ↔
  filter (λ nc, node nc = n) (nodes s) ≠ [] ∨ n ∈ flat_map connections (nodes s).
Proof.
  unfold mentioned. rewrite elem_of_list_to_set.
  induction (nodes s) as [|nc ncs IH]; simpl.
  - set_solver.
  - rewrite filter_cons. rewrite elem_of_cons, !elem_of_app, IH.
    destruct (decide (node nc = n)); [|naive_solver]. naive_solver.
Qed.


(** X6. The node map that [_initialize_nodes] builds. A class that the
    schema configures is filed with the last of its configurations in the
    list, whereas the look-up of the validator and of
    [_get_next_node_class] finds the first; a class that only appears as a
    connection is filed with a default configuration; and the map has an
    entry exactly for the classes the schema mentions. *)
Theorem node_map_last_config_wins wf n :
  self_nodes wf !! n =
    match last (filter (λ nc, node nc = n) (nodes (workflow_schema wf))) with
    | Some nc => Some nc
    | None => if decide (n ∈ mentioned (workflow_schema wf))
              then Some (default_config n) else None
    end ∧
  find_config (workflow_schema wf) n =
    head (filter (λ nc, node nc = n) (nodes (workflow_schema wf))) ∧
  (is_Some (self_nodes wf !! n) ↔ n ∈ mentioned (workflow_schema wf)).
Proof.
  assert (self_nodes wf !! n =
    match last (filter (λ nc, node nc = n) (nodes (workflow_schema wf))) with
    | Some nc => Some nc
    | None => if decide (n ∈ mentioned (workflow_schema wf))
              then Some (default_config n) else None
    end) as Heq.
  { unfold self_nodes. rewrite initialize_nodes_lookup, lookup_empty.
    pose proof (mentioned_cases (workflow_schema wf) n) as Hm.
    destruct (filter _ _) as [|x l] eqn:Hf.
    - simpl. repeat case_decide; try done; naive_solver.
    - destruct (last (x :: l)) eqn:Hl; [done|by apply last_None in Hl]. }
  split; [done|]. split; [apply find_config_head|].
  rewrite Heq. pose proof (mentioned_cases (workflow_schema wf) n) as Hm.
  destruct (filter _ _) as [|x l] eqn:Hf.
  - simpl. destruct (decide (n ∈ mentioned (workflow_schema wf))).
    + split; [done|by eexists].
    + split; [by intros [? ?]|done].
  - destruct (last (x :: l)) eqn:Hl.
    + split; [|by eexists]. intros _. apply Hm. by left.
    + by apply last_None in Hl.
Qed.

End NodeMap.

End NodeMapFacts.

Module TaskLaws.

Import Engine.

Lemma update_node_comm (ctx : TaskContext) (n m : string) (F G : gmap string value) :
  n ≠ m →
  Task.update_node (Task.update_node ctx n F) m G =
  Task.update_node (Task.update_node ctx m G) n F.
Proof.
  intros Hne. unfold Task.update_node. simpl. f_equal.
  rewrite !lookup_insert_ne by done. by apply insert_insert_ne.
Qed.

(** X7. Two calls of [update_node] for one node are one call with the two
    sets of fields merged, the later call winning; calls for different
    nodes commute; a call repeated changes nothing more; a call without
    fields creates an empty record when the node has none; and
    [stop_workflow] commutes with [update_node]. *)
Theorem update_node_composes (ctx : TaskContext) (n m : string)
    (F G : gmap string value) :
  Task.update_node (Task.update_node ctx n F) n G = Task.update_node ctx n (G ∪ F) ∧
  (n ≠ m →
   Task.update_node (Task.update_node ctx n F) m G =
   Task.update_node (Task.update_node ctx m G) n F) ∧
  Task.update_node (Task.update_node ctx n F) n F = Task.update_node ctx n F ∧
  Task.nodes (Task.update_node ctx n ∅) !! n = Some (default ∅ (Task.nodes ctx !! n)) ∧
  Task.stop_workflow (Task.update_node ctx n F) =
    Task.update_node (Task.stop_workflow ctx) n F.
Proof.
  assert (Task.update_node (Task.update_node ctx n F) n G =
          Task.update_node ctx n (G ∪ F)) as Hcomp.
  { unfold Task.update_node. simpl. f_equal.
    rewrite lookup_insert_eq, insert_insert_eq. simpl. by rewrite (assoc_L (∪)). }
  split; [done|]. split; [|split; [|split]].
  - apply update_node_comm.
  - unfold Task.update_node. simpl. f_equal.
    rewrite lookup_insert_eq, insert_insert_eq. simpl.
    by rewrite (assoc_L (∪)), (idemp_L (∪)).
  - unfold Task.update_node. simpl. by rewrite lookup_insert_eq, (left_id_L ∅ (∪)).
  - done.
Qed.

End TaskLaws.

Module RouterLaws.
Import Engine EngineFacts.
Section Router.
Context {world : Type}.

Lemma first_match_app (rs1 rs2 : list (rule world)) w ctx :
  first_match (rs1 ++ rs2) w ctx =
    match first_match rs1 w ctx with
    | Some n => Some n
    | None => first_match rs2 w ctx
    end.
Proof.
  induction rs1 as [|rl rs1 IH]; simpl; [done|]. by destruct (rl w ctx).
Qed.

(** X8. [BaseRouter.route] over the rules [rs1] followed by [rs2] gives
    what the first matching rule of [rs1] gives and else routes over [rs2];
    it gives no node exactly when no rule gives one and there is no
    fallback; and a rule that gives a node decides when no rule before it
    gives one, whatever follows it. *)
Theorem route_falls_through (rs1 rs2 : list (rule world)) (fb : option node_id) w ctx :
  route (mkRouter (rs1 ++ rs2) fb) w ctx =
    match first_match rs1 w ctx with
    | Some n => Some n
    | None => route (mkRouter rs2 fb) w ctx
    end ∧
  (route (mkRouter rs1 fb) w ctx = None ↔
     (∀ rl, rl ∈ rs1 → rl w ctx = None) ∧ fb = None) ∧
  (∀ rl n, rl w ctx = Some n →
     (∀ rl', rl' ∈ rs1 → rl' w ctx = None) →
     route (mkRouter (rs1 ++ rl :: rs2) fb) w ctx = Some n).
Proof.
  split; [|split].
  - unfold route. simpl. rewrite first_match_app. by destruct (first_match rs1 w ctx).
  - unfold route. simpl. split.
    + destruct (first_match rs1 w ctx) eqn:Hf; [done|]. intros ->.
      split; [|done]. by apply first_match_None.
    + intros [Hall ->]. destruct (first_match rs1 w ctx) as [n|] eqn:Hf; [|done].
      apply first_match_Some in Hf as (i & rl & Hi & Hrl & _).
      apply list_elem_of_lookup_2 in Hi. rewrite Hall in Hrl; done.
  - intros rl n Hrl Hall. unfold route. simpl. rewrite first_match_app.
    destruct (first_match rs1 w ctx) as [n'|] eqn:Hf.
    + apply first_match_Some in Hf as (i & rl' & Hi & Hrl' & _).
      apply list_elem_of_lookup_2 in Hi. rewrite Hall in Hrl'; done.
    + simpl. by rewrite Hrl.
Qed.

End Router.
End RouterLaws.

Module RunFacts.
Import Validator ValidatorFacts Engine EngineFacts NodeMapFacts Placeholder Examples.

Section Runs.
Context {world : Type}.
Implicit Types wf : Workflow world.

Lemma get_next_events wf cur w ctx :
  (get_next_node_class wf cur w ctx).1 = [] ∨
  ∃ res, (get_next_node_class wf cur w ctx).1 = [Route cur ctx res].
Proof.
  unfold get_next_node_class.
  destruct (find_config _ cur) as [nc|]; [|by left].
  destruct (connections nc); [by left|].
  destruct (is_router nc); [|by left].
  destruct (self_nodes wf !! cur) as [cfg|]; [|by left].
  destruct (route_of _); right; by eexists.
Qed.


Lemma iteration_started wf cur w ctx cfg :
  Task.should_stop ctx = false → self_nodes wf !! cur = Some cfg →
  ∃ body res w1,
    (body = [] ∧ res = Returns ctx ∨ body = [Process cur ctx res]) ∧
    iteration wf cur w ctx =
      match res with
      | Raises e c' =>
        (LogStarting cur :: body ++ [LogError cur (exn_msg e); LogFinished cur],
         Abort e c', w1)
      | Returns c' =>
        (LogStarting cur :: body ++
           LogFinished cur :: (get_next_node_class wf cur w1 c').1,
         match (get_next_node_class wf cur w1 c').2 with
         | inl e => Abort e c'
         | inr next => Next next c'
         end, w1)
      end.
Proof.
  intros Hs Hn. destruct (class_of wf cur) as [rt|process rm] eqn:Hcls.
  - exists [], (Returns ctx), w. split; [by left|].
    by rewrite (iteration_router wf cur w ctx cfg rt Hs Hn Hcls).
  - rewrite (iteration_plain wf cur w ctx cfg process rm Hs Hn Hcls).
    destruct (process w ctx) as [res w1].
    exists [Process cur ctx res], res, w1. split; [by right|]. by destruct res.
Qed.

(** The readers on the events of one pass that starts its node. *)
Lemma started_pass_readers wf cur w ctx cfg evs r w' :
  Task.should_stop ctx = false → self_nodes wf !! cur = Some cfg →
  iteration wf cur w ctx = (evs, r, w') →
  visited_sequence evs = [cur] ∧ brackets evs = [(true, cur); (false, cur)] ∧
  logged_errors evs = raising_calls (calls evs) ∧ LogStopping ∉ evs.
Proof.
  intros Hs Hn Hit.
  destruct (iteration_started wf cur w ctx cfg Hs Hn) as (body & res & w1 & Hbody & Heq).
  rewrite Heq in Hit. destruct res as [c'|e c'].
  - injection Hit as <- <- <-.
    destruct (get_next_events wf cur w1 c') as [->|[res ->]];
      destruct Hbody as [[-> _]| ->]; simpl; (do 3 (split; [done|]));
      rewrite !elem_of_cons, elem_of_nil; naive_solver.
  - injection Hit as <- <- <-.
    destruct Hbody as [[-> ?]| ->]; [done|]. simpl. (do 3 (split; [done|])).
    rewrite !elem_of_cons, elem_of_nil; naive_solver.
Qed.

Lemma visited_sequence_app evs1 evs2 :
  visited_sequence (evs1 ++ evs2) = visited_sequence evs1 ++ visited_sequence evs2.
Proof. apply omap_app. Qed.

Lemma brackets_app evs1 evs2 : brackets (evs1 ++ evs2) = brackets evs1 ++ brackets evs2.
Proof. apply omap_app. Qed.

Lemma logged_errors_app evs1 evs2 :
  logged_errors (evs1 ++ evs2) = logged_errors evs1 ++ logged_errors evs2.
Proof. apply omap_app. Qed.

Lemma raising_calls_app cs1 cs2 :
  raising_calls (cs1 ++ cs2) = raising_calls cs1 ++ raising_calls cs2.
Proof. apply omap_app. Qed.

(** What a pass contributes, whichever way it goes. *)
Lemma pass_readers wf cur w ctx evs r w' :
  iteration wf cur w ctx = (evs, r, w') →
  (evs = [LogStopping] ∧ r = Break ctx ∧ Task.should_stop ctx = true) ∨
  (evs = [] ∧ r = Abort (key_error cur) ctx ∧ self_nodes wf !! cur = None) ∨
  (Task.should_stop ctx = false ∧ is_Some (self_nodes wf !! cur) ∧
   (∀ c, r ≠ Break c) ∧
   visited_sequence evs = [cur] ∧ brackets evs = [(true, cur); (false, cur)] ∧
   logged_errors evs = raising_calls (calls evs) ∧ LogStopping ∉ evs).
Proof.
  intros Hit. destruct (Task.should_stop ctx) eqn:Hs.
  { rewrite iteration_stopped in Hit by done. injection Hit as <- <- <-. by left. }
  destruct (self_nodes wf !! cur) as [cfg|] eqn:Hn.
  2:{ unfold iteration in Hit. rewrite Hs, Hn in Hit. injection Hit as <- <- <-.
      right; left. done. }
  right; right. split; [done|]. split; [by eexists|]. split.
  - pose proof (iteration_shape wf cur w ctx evs r w' Hit) as Hsh.
    intros c ->. inversion Hsh; subst; try congruence; naive_solver.
  - by eapply started_pass_readers.
Qed.

Lemma run_loop_log wf fuel cur w ctx evs out w' :
  run_loop wf fuel cur w ctx = Some (evs, out, w') →
  brackets evs = flat_map (λ n, [(true, n); (false, n)]) (visited_sequence evs) ∧
  logged_errors evs = raising_calls (calls evs).
Proof.
  revert cur w ctx evs out w'.
  induction fuel as [|fuel IH]; intros cur w ctx evs out w' Hrun.
  { destruct cur; [done|]. by injection Hrun as <- <- <-. }
  destruct cur as [cur|]; [|by injection Hrun as <- <- <-].
  apply run_loop_Some in Hrun as (evs1 & r & w1 & Hit & Hr).
  assert (brackets evs1 = flat_map (λ n, [(true, n); (false, n)]) (visited_sequence evs1) ∧
          logged_errors evs1 = raising_calls (calls evs1)) as [Hb1 Hl1].
  { destruct (pass_readers wf cur w ctx evs1 r w1 Hit)
      as [(-> & _)|[(-> & _)|(_ & _ & _ & Hv & Hb & Hl & _)]]; [done|done|].
    by rewrite Hv, Hb, Hl. }
  destruct r as [next c|c|e c].
  - destruct Hr as (evs2 & Hrun2 & ->).
    destruct (IH _ _ _ _ _ _ Hrun2) as [Hb2 Hl2].
    rewrite brackets_app, visited_sequence_app, flat_map_app, logged_errors_app,
      calls_app, raising_calls_app. by rewrite Hb1, Hb2, Hl1, Hl2.
  - by destruct Hr as (-> & _).
  - by destruct Hr as (-> & _).
Qed.

(** X9. In the trace of every run that ended, the [Starting] and
    [Finished] records come in pairs, one pair for each node that was
    started, in the order of the visits, also for a node whose [process]
    raised; the error records are those of the calls of [process] that
    raised, with the message of the exception (an error raised by the runner
    itself is not logged); and an error record is of the last node visited,
    whose exception the run raises. *)
Theorem node_context_brackets_every_node wf fuel w ev evs res w' :
  run wf fuel w ev = Some (evs, res, w') →
  brackets evs = flat_map (λ n, [(true, n); (false, n)]) (visited_sequence evs) ∧
  logged_errors evs = raising_calls (calls evs) ∧
  (∀ n msg, (n, msg) ∈ logged_errors evs →
     ∃ e c, res = Raised e c ∧ exn_msg e = msg ∧ last (visited_sequence evs) = Some n).
Proof.
  unfold run. intros Hrun.
  destruct (event_schema _ ev) as [e|parsed].
  { injection Hrun as <- <- <-. split; [done|]. split; [done|]. by intros ? ? ?%elem_of_nil. }
  destruct (run_loop _ _ _ _ _) as [[[evs0 out] w0]|] eqn:Hloop; [|done].
  assert (evs0 = evs) as ->.
  { destruct out; [destruct (_ !! _)|]; by injection Hrun. }
  destruct (run_loop_log _ _ _ _ _ _ _ _ Hloop) as [Hb Hl].
  split; [done|]. split; [done|].
  intros n msg Hin. rewrite Hl in Hin.
  unfold raising_calls in Hin. apply list_elem_of_omap in Hin as ([[n0 c0] r0] & Hin & Hsome).
  destruct r0 as [|e c']; [done|]. injection Hsome as -> <-.
  apply list_elem_of_lookup in Hin as [i Hi].
  destruct (run_loop_raise _ _ _ _ _ _ _ _ _ _ _ _ _ Hloop Hi) as (_ & -> & pre & ->).
  injection Hrun as <- <-. exists e, c'. split; [done|]. split; [done|].
  rewrite visited_sequence_app. simpl. by rewrite last_snoc.
Qed.

Lemma run_loop_stopping wf fuel cur w ctx evs out w' :
  run_loop wf fuel cur w ctx = Some (evs, out, w') →
  match out with
  | Exited Stopped c =>
    Task.should_stop c = true ∧ ∃ pre, evs = pre ++ [LogStopping] ∧ LogStopping ∉ pre
  | _ => LogStopping ∉ evs
  end.
Proof.
  revert cur w ctx evs out w'.
  induction fuel as [|fuel IH]; intros cur w ctx evs out w' Hrun.
  { destruct cur; [done|]. injection Hrun as <- <- <-. by intros ?%elem_of_nil. }
  destruct cur as [cur|]; [|injection Hrun as <- <- <-; by intros ?%elem_of_nil].
  apply run_loop_Some in Hrun as (evs1 & r & w1 & Hit & Hr).
  destruct (pass_readers wf cur w ctx evs1 r w1 Hit)
    as [(-> & -> & Hs)|[(-> & -> & _)|(_ & _ & Hnb & _ & _ & _ & Hno)]].
  - destruct Hr as (-> & -> & _). split; [done|]. exists []. split; [done|].
    by intros ?%elem_of_nil.
  - destruct Hr as (-> & -> & _). by intros ?%elem_of_nil.
  - destruct r as [next c|c|e c].
    + destruct Hr as (evs2 & Hrun2 & ->). specialize (IH _ _ _ _ _ _ Hrun2).
      destruct out as [[|] c'|e c'].
      * rewrite elem_of_app. tauto.
      * destruct IH as (Hs & pre & -> & Hpre). split; [done|].
        exists (evs1 ++ pre). split; [by rewrite app_assoc|].
        rewrite elem_of_app. tauto.
      * rewrite elem_of_app. tauto.
    + by destruct (Hnb c).
    + by destruct Hr as (-> & -> & _).
Qed.

(** X10. A run that returns in state [Stopped] returns a context whose
    stop flag is set, and its trace ends with the one stop record; a run
    that returns in state [Completed] has no stop record; a run that raises
    has one only when the metadata entry ["nodes"] was gone at the end. And
    a node without successor that sets the stop flag ends the loop in state
    [Completed]: the flag is not looked at after the last node. *)
Theorem stopping_is_logged_last wf :
  (∀ fuel w ev evs res w', run wf fuel w ev = Some (evs, res, w') →
     match res with
     | Returned Stopped c =>
       Task.should_stop c = true ∧ ∃ pre, evs = pre ++ [LogStopping] ∧ LogStopping ∉ pre
     | Returned Completed c => LogStopping ∉ evs
     | Raised e c =>
       LogStopping ∈ evs → e = key_error "nodes" ∧ Task.metadata c !! "nodes" = None
     end) ∧
  (∀ fuel cur w ctx cfg process rm c' w1,
     Task.should_stop ctx = false → self_nodes wf !! cur = Some cfg →
     class_of wf cur = PlainClass process rm →
     process w ctx = (Returns c', w1) →
     Validator.successors (workflow_schema wf) cur = [] →
     run_loop wf (S fuel) (Some cur) w ctx =
       Some ([LogStarting cur; Process cur ctx (Returns c'); LogFinished cur],
             Exited Completed c', w1)).
Proof.
  split.
  - unfold run. intros fuel w ev evs res w' Hrun.
    destruct (event_schema _ ev) as [e|parsed].
    { injection Hrun as <- <- <-. by intros ?%elem_of_nil. }
    destruct (run_loop _ _ _ _ _) as [[[evs0 out] w0]|] eqn:Hloop; [|done].
    apply run_loop_stopping in Hloop.
    destruct out as [t c|e c].
    + destruct (Task.metadata c !! "nodes") eqn:Hm; injection Hrun as <- <- <-.
      * by destruct t.
      * done.
    + injection Hrun as <- <- <-. done.
  - intros fuel cur w ctx cfg process rm c' w1 Hs Hn Hcls Hp Hsucc.
    simpl. rewrite (iteration_plain wf cur w ctx cfg process rm Hs Hn Hcls), Hp.
    assert (get_next_node_class wf cur w1 c' = ([], inr None)) as ->.
    { unfold get_next_node_class. unfold successors in Hsucc.
      destruct (find_config _ cur) as [nc|]; [|done]. by rewrite Hsucc. }
    simpl. by rewrite run_loop_None.
Qed.






(** X13. A schema that configures no node is accepted, with an empty node
    map; every run of such a workflow whose event is parsed raises
    [KeyError] for the start class before any node is started. *)
Theorem empty_schema_is_accepted_and_cannot_run wf :
  nodes (workflow_schema wf) = [] →
  init wf = Some (inr ∅) ∧
  ∀ fuel w ev parsed,
    event_schema (workflow_schema wf) ev = inr parsed →
    run wf (S fuel) w ev =
      Some ([], Raised (key_error (start (workflow_schema wf)))
                       (initial_context wf parsed), w).
Proof.
  intros Hnil.
  assert (self_nodes wf = ∅) as Hself.
  { unfold self_nodes. by rewrite Hnil. }
  split.
  - unfold init. rewrite Hself.
    destruct (validate_cases (workflow_schema wf)) as [[_ Hbad]|[-> _]]; [|done].
    exfalso. destruct Hbad as [[n Hn]|[(n & (nc & Hnc & _) & _)|(nc & Hnc & _)]].
    + apply tc_first_edge in Hn as (v & Hv & _).
      apply edge_configured in Hv as (nc & Hnc & _). rewrite Hnil in Hnc. set_solver.
    + rewrite Hnil in Hnc. set_solver.
    + rewrite Hnil in Hnc. set_solver.
  - intros fuel w ev parsed Hp. unfold run. rewrite Hp. simpl.
    unfold iteration. simpl. by rewrite Hself, lookup_empty.
Qed.

(** X14. The runner does not check what [route] gives against the
    connections: the loop never leaves a router, marked as such and with a
    connection, whose [route] always gives the router itself; when it is the
    start class no run whose event is parsed ends. *)
Theorem self_routing_router_never_ends wf cur nc r :
  find_config (workflow_schema wf) cur = Some nc →
  is_router nc = true → connections nc ≠ [] →
  class_of wf cur = RouterClass r →
  (∀ w ctx, route r w ctx = Some cur) →
  (∀ fuel w ctx, Task.should_stop ctx = false →
     run_loop wf fuel (Some cur) w ctx = None) ∧
  (cur = start (workflow_schema wf) →
   ∀ fuel w ev parsed, event_schema (workflow_schema wf) ev = inr parsed →
     run wf fuel w ev = None).
Proof.
  intros Hf Hr Hc Hcls Hself.
  assert (∀ fuel w ctx, Task.should_stop ctx = false →
            run_loop wf fuel (Some cur) w ctx = None) as Hloop.
  { intros fuel w ctx Hs. induction fuel as [|fuel IH]; [done|].
    destruct (self_nodes_configured wf cur nc Hf) as (cfg & Hn & _).
    simpl. rewrite (iteration_router wf cur w ctx cfg r Hs Hn Hcls).
    rewrite (get_next_flagged wf cur w ctx nc Hf Hr Hc), Hcls. simpl.
    by rewrite Hself, IH. }
  split; [done|]. intros -> fuel w ev parsed Hp.
  unfold run. rewrite Hp. by rewrite Hloop.
Qed.

(** X15. The generated workflow: the schema is accepted, the node map
    holds [InitialNode] alone, and for every event a run either raises what
    parsing the event raised, or visits [InitialNode] once and returns, in
    state [Completed], a context that holds the parsed event, no result, no
    metadata and no stop request. *)
Theorem placeholder_workflow_returns_the_event parse :
  init (PlaceholderWorkflow (world:=world) parse) =
    Some (inr {["InitialNode" := mkNodeConfig "InitialNode" [] false (Some "") (Some [])]}) ∧
  ∀ fuel (w : world) ev,
    run (PlaceholderWorkflow parse) (S fuel) w ev =
      match parse ev with
      | inl e => Some ([], Raised e (Task.new ev), w)
      | inr parsed =>
        Some ([LogStarting "InitialNode";
               Process "InitialNode"
                 (initial_context (PlaceholderWorkflow (world:=world) parse) parsed)
                 (Returns (initial_context (PlaceholderWorkflow (world:=world) parse) parsed));
               LogFinished "InitialNode"],
              Returned Completed (Task.new parsed), w)
      end.
Proof.
  split.
  - unfold init.
    destruct (validate_cases (workflow_schema (PlaceholderWorkflow (world:=world) parse)))
      as [[_ Hbad]|[-> _]]; [|done].
    exfalso. destruct Hbad as [[n Hn]|[(n & (nc & Hnc & Hn) & Hnr)|(nc & Hnc & Hl & _)]].
    + apply tc_first_edge in Hn as (v & Hv & _). unfold edge, successors in Hv.
      destruct (find_config _ n) as [nc|] eqn:Hf; [|set_solver].
      apply find_config_Some in Hf as [Hnc _].
      apply list_elem_of_singleton in Hnc as ->. set_solver.
    + apply list_elem_of_singleton in Hnc as ->. subst n. apply Hnr, rtc_refl.
    + apply list_elem_of_singleton in Hnc as ->. simpl in Hl. lia.
  - intros fuel w ev. unfold run. simpl. destruct (parse ev) as [e|parsed]; [done|].
    assert (self_nodes (PlaceholderWorkflow (world:=world) parse) !! "InitialNode" =
            Some (mkNodeConfig "InitialNode" [] false (Some "") (Some []))) as Hself.
    { unfold self_nodes. simpl. by rewrite lookup_insert_eq. }
    simpl. unfold iteration. simpl. rewrite Hself. simpl.
    rewrite run_loop_None. simpl. rewrite lookup_insert_eq.
    unfold Task.pop_metadata, Task.new. simpl.
    by rewrite delete_insert_eq, delete_empty.
Qed.

End Runs.




(** X14 on a router whose fallback is the router itself: the schema is
    accepted and no run ends. *)
Lemma self_routing_router_never_ends_witness :
  Validator.validate (workflow_schema spinner) = Some (inr ()) ∧
  (∀ fuel w ctx, Task.should_stop ctx = false →
     run_loop spinner fuel (Some "R") w ctx = None) ∧
  ("R" = start (workflow_schema spinner) →
   ∀ fuel w ev parsed, event_schema (workflow_schema spinner) ev = inr parsed →
     run spinner fuel w ev = None).
Proof.
  split; [vm_compute; reflexivity|].
  apply (self_routing_router_never_ends spinner "R" (config "R" ["B"] true)
           (mkRouter [] (Some "R"))).
  - reflexivity.
  - reflexivity.
  - discriminate.
  - reflexivity.
  - reflexivity.
Defined.

(** X9 on a workflow whose first node raises. *)
Lemma node_context_brackets_every_node_witness :
  ∃ evs res w',
    run failing 5 0 ∅ = Some (evs, res, w') ∧
    logged_errors evs = [("A", "boom")] ∧
    brackets evs = flat_map (λ n, [(true, n); (false, n)]) (visited_sequence evs) ∧
    logged_errors evs = raising_calls (calls evs) ∧
    (∀ n msg, (n, msg) ∈ logged_errors evs →
       ∃ e c, res = Raised e c ∧ exn_msg e = msg ∧ last (visited_sequence evs) = Some n).
Proof.
  eexists _, _, _. split; [vm_compute; reflexivity|]. split; [reflexivity|].
  eapply (node_context_brackets_every_node failing 5 0 ∅).
  vm_compute. reflexivity.
Defined.

(** X13 on a workflow without configurations. *)
Lemma empty_schema_is_accepted_and_cannot_run_witness :
  init nothing = Some (inr ∅) ∧
  ∀ fuel w ev parsed,
    event_schema (workflow_schema nothing) ev = inr parsed →
    run nothing (S fuel) w ev =
      Some ([], Raised (key_error (start (workflow_schema nothing)))
                       (initial_context nothing parsed), w).
Proof. apply (empty_schema_is_accepted_and_cannot_run nothing). reflexivity. Defined.

End RunFacts.

Module InterleavingFacts.
Import Concurrent ConcurrentFacts Examples.

Lemma all_returned_players (scripts : list script) rs :
  all_returned (player <$> scripts) = Some rs →
  rs = snd <$> scripts ∧ run_in_turn scripts = id.
Proof.
  revert rs. induction scripts as [|[effs r] scripts IH]; intros rs; csimpl.
  - by intros [= <-].
  - destruct effs as [|e effs]; [|done]. unfold player at 1. simpl.
    destruct (all_returned _) as [rs'|]; [|done]. intros [= <-].
    destruct (IH rs' eq_refl) as [-> Hid]. split; [done|].
    unfold run_in_turn in *. simpl. exact Hid.
Qed.

Lemma apply_all_commute (e : TaskContext → TaskContext) effs c :
  (∀ e', e' ∈ effs → ∀ c, e (e' c) = e' (e c)) →
  e (apply_all effs c) = apply_all effs (e c).
Proof.
  revert c. induction effs as [|e' effs IH]; intros c Hc; [done|].
  unfold apply_all in *. simpl. rewrite IH.
  - f_equal. apply Hc. left.
  - intros e'' Hin. apply Hc. by right.
Qed.

Lemma run_in_turn_commute (e : TaskContext → TaskContext) (scripts : list script) c :
  (∀ s e', s ∈ scripts → e' ∈ s.1 → ∀ c, e (e' c) = e' (e c)) →
  e (run_in_turn scripts c) = run_in_turn scripts (e c).
Proof.
  revert c. induction scripts as [|s scripts IH]; intros c Hc; [done|].
  unfold run_in_turn in *. simpl. rewrite IH.
  - f_equal. apply apply_all_commute. intros e' He'. apply (Hc s); [left|done].
  - intros s' e' Hs'. apply Hc. by right.
Qed.

Lemma run_in_turn_app (pre post : list script) c :
  run_in_turn (pre ++ post) c = run_in_turn post (run_in_turn pre c).
Proof. apply foldl_app. Qed.

Lemma independent_step (scripts : list script) i e rest r :
  independent scripts → scripts !! i = Some (e :: rest, r) →
  independent (<[i := (rest, r)]> scripts).
Proof.
  intros Hind Hi a b sa sb ea eb Hab Ha Hb Hea Heb.
  assert (i < length scripts) as Hlt by by eapply lookup_lt_Some.
  destruct (decide (a = i)) as [->|Hai].
  - rewrite list_lookup_insert_eq in Ha by done. injection Ha as <-.
    rewrite list_lookup_insert_ne in Hb by done.
    eapply (Hind i b); try done. by right.
  - rewrite list_lookup_insert_ne in Ha by done.
    destruct (decide (b = i)) as [->|Hbi].
    + rewrite list_lookup_insert_eq in Hb by done. injection Hb as <-.
      eapply (Hind a i); try done. by right.
    + rewrite list_lookup_insert_ne in Hb by done. by eapply (Hind a b).
Qed.

Lemma run_in_turn_step (scripts : list script) i e rest r c :
  independent scripts → scripts !! i = Some (e :: rest, r) →
  run_in_turn (<[i := (rest, r)]> scripts) (e c) = run_in_turn scripts c.
Proof.
  intros Hind Hi.
  destruct (list_elem_of_split_length scripts i _ Hi) as (pre & post & -> & ->).
  rewrite insert_app_r_alt by done. rewrite Nat.sub_diag. simpl.
  rewrite !run_in_turn_app.
  change (run_in_turn ((rest, r) :: post) ?x) with (run_in_turn post (apply_all rest x)).
  change (run_in_turn ((e :: rest, r) :: post) ?x)
    with (run_in_turn post (apply_all rest (e x))).
  do 2 f_equal. symmetry. apply run_in_turn_commute.
  intros s e' [j Hj]%list_elem_of_lookup He' c'.
  apply (Hind (length pre) j (e :: rest, r) s).
  - apply lookup_lt_Some in Hj. lia.
  - by rewrite lookup_app_r, Nat.sub_diag by done.
  - by rewrite lookup_app_l by (by eapply lookup_lt_Some).
  - left.
  - done.
Qed.

Lemma gather_players schedule shared (scripts : list script) evs res :
  independent scripts →
  gather schedule shared (player <$> scripts) = Some (evs, res) →
  res = Gathered (snd <$> scripts) (run_in_turn scripts shared).
Proof.
  revert shared scripts evs res.
  induction schedule as [|i schedule IH]; intros shared scripts evs res Hind; simpl.
  all: destruct (all_returned (player <$> scripts)) as [rs|] eqn:Hall.
  1,3: intros [= <- <-]; apply all_returned_players in Hall as [-> ->]; done.
  { done. }
  rewrite list_lookup_fmap.
  destruct (scripts !! i) as [[effs r]|] eqn:Hi; simpl.
  - destruct effs as [|e rest]; unfold player at 1; simpl.
    + by apply IH.
    + destruct rest as [|e2 rest]; simpl.
      * destruct (gather schedule _ _) as [[evs' res']|] eqn:Hg; [|done].
        intros [= <- <-].
        change (Return r) with (player ([], r)) in Hg.
        rewrite <- list_fmap_insert in Hg.
        apply IH in Hg; [|by eapply independent_step].
        rewrite Hg. rewrite list_fmap_insert. simpl.
        rewrite list_insert_id by (by rewrite list_lookup_fmap, Hi).
        f_equal. by apply run_in_turn_step.
      * destruct (gather schedule _ _) as [[evs' res']|] eqn:Hg; [|done].
        intros [= <- <-].
        change (Resume e2 (λ _, play rest r)) with (player (e2 :: rest, r)) in Hg.
        rewrite <- list_fmap_insert in Hg.
        apply IH in Hg; [|by eapply independent_step].
        rewrite Hg. rewrite list_fmap_insert. simpl.
        rewrite list_insert_id by (by rewrite list_lookup_fmap, Hi).
        f_equal. by apply run_in_turn_step.
  - by apply IH.
Qed.

(** X16. A group whose siblings each run their own segments on the shared
    context, segments of different siblings commuting: in whatever order
    the event loop resumes the siblings, a call that ends gives the values
    the siblings return, in the order of [concurrent_nodes], and leaves the
    shared context as if the siblings had run one after the other; and some
    order of resumption brings the call to that end. *)
Theorem independent_siblings_any_order process self ctx configs nc siblings
    (script_of : node_id → script) :
  Task.metadata ctx !! "nodes" = Some (MetaNodes configs) →
  configs !! self = Some nc → concurrent_nodes nc = Some siblings →
  (∀ n, n ∈ siblings → process n = play (script_of n).1 (script_of n).2) →
  independent (script_of <$> siblings) →
  (∀ schedule evs res,
     execute_nodes_concurrently process self schedule ctx = Some (evs, res) →
     res = Gathered ((λ n, (script_of n).2) <$> siblings)
                    (run_in_turn (script_of <$> siblings) ctx)) ∧
  (∃ schedule evs,
     execute_nodes_concurrently process self schedule ctx =
       Some (evs, Gathered ((λ n, (script_of n).2) <$> siblings)
                           (run_in_turn (script_of <$> siblings) ctx))).
Proof.
  intros Hm Hc Hs Hp Hind. unfold execute_nodes_concurrently. rewrite Hm, Hc, Hs.
  assert (map process siblings = player <$> (script_of <$> siblings)) as ->.
  { rewrite <- list_fmap_compose. apply list_fmap_ext.
    intros i n Hn. apply Hp. by eapply list_elem_of_lookup_2. }
  assert (∀ schedule evs res,
    gather schedule ctx (player <$> (script_of <$> siblings)) = Some (evs, res) →
    res = Gathered ((λ n, (script_of n).2) <$> siblings)
                   (run_in_turn (script_of <$> siblings) ctx)) as Hall.
  { intros schedule evs res Hg. apply gather_players in Hg; [|done].
    by rewrite <- list_fmap_compose in Hg. }
  split; [done|].
  destruct (gather_completes ctx (player <$> (script_of <$> siblings)))
    as (schedule & evs & res & Hg).
  exists schedule, evs. by rewrite <- (Hall _ _ _ Hg).
Qed.

Lemma group_independent : independent (group_script <$> ["X"; "Y"; "Z"]).
Proof.
  intros i j si sj e e' Hij Hi Hj He He' c.
  destruct i as [|[|[|i]]]; simpl in Hi; simplify_eq;
    destruct j as [|[|[|j]]]; simpl in Hj; simplify_eq;
    simpl in He, He'; rewrite !elem_of_cons, elem_of_nil in He, He';
    destruct He as [->|[->|[]]]; destruct He' as [->|[->|[]]];
    by apply TaskLaws.update_node_comm.
Qed.

(** X16 on the group F of X, Y and Z. *)
Lemma independent_siblings_any_order_witness :
  (∀ schedule evs res,
     execute_nodes_concurrently (group_process (writes "Y")) "F" schedule group_context
       = Some (evs, res) →
     res = Gathered ((λ n, (group_script n).2) <$> ["X"; "Y"; "Z"])
                    (run_in_turn (group_script <$> ["X"; "Y"; "Z"]) group_context)) ∧
  (∃ schedule evs,
     execute_nodes_concurrently (group_process (writes "Y")) "F" schedule group_context =
       Some (evs, Gathered ((λ n, (group_script n).2) <$> ["X"; "Y"; "Z"])
                           (run_in_turn (group_script <$> ["X"; "Y"; "Z"]) group_context))).
Proof.
  apply (independent_siblings_any_order (group_process (writes "Y")) "F" group_context
           group_configs (mkNodeConfig "F" [] false None (Some ["X"; "Y"; "Z"]))
           ["X"; "Y"; "Z"] group_script).
  - reflexivity.
  - reflexivity.
  - reflexivity.
  - intros n _. unfold group_process. by destruct (decide (n = "Y")) as [->|].
  - apply group_independent.
Defined.

End InterleavingFacts.

Module FanOutFacts.
Import Validator Engine Concurrent NodeMapFacts Examples.

Section FanOut.
Context {world : Type}.
Implicit Types wf : Workflow world.

(** X17. Inside a run, where the metadata entry ["nodes"] is the node map
    of the workflow, [execute_nodes_concurrently] of the class [self] fans
    out over the [concurrent_nodes] of the last configuration of [self] in
    the schema; for a class that only appears as a connection the group is
    empty and the call gives the empty list at once, whatever the schedule;
    for a class that the schema does not mention the call raises [KeyError]
    before any sibling is created. *)
Theorem group_is_read_from_node_map wf process self schedule ctx :
  Task.metadata ctx !! "nodes" = Some (MetaNodes (self_nodes wf)) →
  execute_nodes_concurrently process self schedule ctx =
    match last (filter (λ nc, node nc = self) (nodes (workflow_schema wf))) with
    | Some nc =>
      match concurrent_nodes nc with
      | Some siblings => gather schedule ctx (map process siblings)
      | None => Some ([], Propagated (type_error "not iterable") ctx)
      end
    | None =>
      if decide (self ∈ mentioned (workflow_schema wf))
      then Some ([], Gathered [] ctx)
      else Some ([], Propagated (Concurrent.key_error self) ctx)
    end.
Proof.
  intros Hm. unfold execute_nodes_concurrently. rewrite Hm.
  unfold self_nodes. rewrite initialize_nodes_lookup, lookup_empty.
  pose proof (mentioned_cases (workflow_schema wf) self) as Hcases.
  destruct (last _) as [nc|] eqn:Hl; [done|].
  apply last_None in Hl. rewrite Hl in Hcases.
  destruct (decide (self ∈ flat_map _ _)).
  - rewrite decide_True by naive_solver. simpl. by destruct schedule.
  - rewrite decide_False by naive_solver. done.
Qed.

End FanOut.

(** X17 on the group F as the runner hands it to the first node. *)
Lemma group_is_read_from_node_map_witness :
  execute_nodes_concurrently (group_process (writes "Y")) "F" [0; 1; 2; 0; 1; 2]
    (initial_context group_workflow ∅) =
  gather [0; 1; 2; 0; 1; 2] (initial_context group_workflow ∅)
    (map (group_process (writes "Y")) ["X"; "Y"; "Z"]).
Proof.
  apply (group_is_read_from_node_map group_workflow (group_process (writes "Y")) "F"
           [0; 1; 2; 0; 1; 2] (initial_context group_workflow ∅)).
  reflexivity.
Defined.

End FanOutFacts.

Module InstanceFacts.
Import Engine EngineFacts Examples.

Section Invocations.
Context {world : Type}.
Implicit Types wf : Workflow (Instance.state world).












End Invocations.

Section Copy.
Context {world : Type}.
Implicit Types wf : Workflow world.

Lemma view_in_sync dict ctx : Instance.in_sync dict ctx → Instance.view dict ctx = ctx.
Proof.
  intros Hs. unfold Instance.view.
  destruct (Task.metadata ctx !! "nodes") as [[m|v]|] eqn:Hm; [|done|done].
  rewrite (Hs m Hm) in Hm. destruct ctx as [ev ns md st]. unfold Task.set_metadata.
  simpl in *. f_equal. by apply insert_id.
Qed.

Lemma first_match_lift (rs : list (rule world)) (s : Instance.state world) ctx :
  first_match (Instance.lift_rule <$> rs) s ctx = first_match rs s.2 ctx.
Proof.
  induction rs as [|rl rs IH]; [done|]. csimpl. unfold Instance.lift_rule at 1.
  by destruct (rl s.2 ctx).
Qed.

Lemma route_of_lift (cls : node_class world) :
  match route_of cls with
  | Some rt =>
    ∃ rt', route_of (Instance.lift_class cls) = Some rt' ∧ ∀ s ctx, rt' s ctx = rt s.2 ctx
  | None => route_of (Instance.lift_class cls) = None
  end.
Proof.
  destruct cls as [r|process rm]; simpl.
  - eexists. split; [done|]. intros s ctx. unfold route. simpl.
    by rewrite first_match_lift.
  - destruct rm as [rl|]; simpl; [|done]. eexists. split; [done|]. done.
Qed.

Lemma get_next_lift wf cur w ctx :
  Instance.get_next_node_class (Instance.lift wf) cur (self_nodes wf, w) ctx =
  get_next_node_class wf cur w ctx.
Proof.
  unfold Instance.get_next_node_class, get_next_node_class. simpl.
  destruct (find_config _ cur) as [nc|]; [|done].
  destruct (connections nc); [done|]. destruct (is_router nc); [|done].
  destruct (self_nodes wf !! cur) as [cfg|]; [|done].
  pose proof (route_of_lift (class_of wf (node cfg))) as Hrt.
  destruct (route_of (class_of wf (node cfg))) as [rt|].
  - destruct Hrt as (rt' & -> & Heq). by rewrite Heq.
  - by rewrite Hrt.
Qed.

Lemma iteration_lift wf cur w ctx :
  Instance.keeps_in_sync wf → Instance.in_sync (self_nodes wf) ctx →
  Instance.iteration (Instance.lift wf) cur (self_nodes wf, w) ctx =
    Instance.with_dict wf (iteration wf cur w ctx) ∧
  Instance.in_sync (self_nodes wf) (Instance.step_context (iteration wf cur w ctx).1.2).
Proof.
  intros Hk Hs. unfold Instance.iteration, iteration, Instance.with_dict. simpl.
  destruct (Task.should_stop ctx); [done|].
  destruct (self_nodes wf !! cur) as [cfg|]; [|done].
  pose proof (Hk (node cfg)) as Hcls.
  destruct (class_of wf (node cfg)) as [r|process rm]; simpl.
  - rewrite (view_in_sync _ _ Hs), get_next_lift.
    destruct (get_next_node_class wf cur w ctx) as [routing [e|next]]; done.
  - specialize (Hcls process rm w ctx eq_refl Hs).
    destruct (process w ctx) as [[c'|e c'] w1]; simpl in *.
    + rewrite (view_in_sync _ _ Hcls), get_next_lift.
      destruct (get_next_node_class wf cur w1 c') as [routing [e|next]]; done.
    + by rewrite (view_in_sync _ _ Hcls).
Qed.

Lemma run_loop_lift wf fuel cur w ctx :
  Instance.keeps_in_sync wf → Instance.in_sync (self_nodes wf) ctx →
  Instance.run_loop (Instance.lift wf) fuel cur (self_nodes wf, w) ctx =
    (λ r, (r.1.1, r.1.2, (self_nodes wf, r.2))) <$> run_loop wf fuel cur w ctx.
Proof.
  intros Hk. revert cur w ctx.
  induction fuel as [|fuel IH]; intros cur w ctx Hs; [by destruct cur|].
  destruct cur as [cur|]; [|done]. simpl.
  destruct (iteration_lift wf cur w ctx Hk Hs) as [-> Hs'].
  destruct (iteration wf cur w ctx) as [[evs r] w1]. unfold Instance.with_dict. simpl in *.
  destruct r as [next c|c|e c]; [|done|done].
  rewrite (IH next w1 c Hs').
  by destruct (run_loop wf fuel next w1 c) as [[[evs2 r2] w2]|].
Qed.

(** The runner of [Engine], on a copy of the node map, is the runner on the
    dict itself for node bodies that leave the dict alone. *)
Lemma run_on_copy wf fuel w ev :
  Instance.keeps_in_sync wf →
  Instance.run (Instance.lift wf) fuel (self_nodes wf, w) ev =
    (λ r, (r.1.1, r.1.2, (self_nodes wf, r.2))) <$> run wf fuel w ev.
Proof.
  intros Hk. unfold Instance.run, run. simpl.
  destruct (event_schema _ ev) as [e|parsed]; [done|].
  change (Instance.initial_context (self_nodes wf, w) parsed)
    with (initial_context wf parsed).
  rewrite run_loop_lift; [|done|].
  - destruct (run_loop wf fuel _ w _) as [[[evs out] w1]|]; [|done]. simpl.
    destruct out as [t c|e c]; [|done]. by destruct (Task.metadata c !! "nodes").
  - intros m. unfold initial_context. simpl. rewrite lookup_insert_eq. by intros [= <-].
Qed.



End Copy.





End InstanceFacts.
